(** * ve_direct: the VE.Direct frame parser and the hex-protocol requests

    A shallow embedding of [src/ve_direct/parser.py] (the incremental
    byte-stream parser [VEDirectParser.receive_bytes]) and of
    [src/ve_direct/hex_protocol.py] (the request constructors and
    [HexDataRequest.serialize]), followed by the properties of the
    specification that concern them.

    Conventions.
    - A Python [bytes]/[bytearray] is a [list byte]; a Python [str] is the
      list of its code points.
    - The parser object is a record; every method call takes the record and
      returns the updated one (explicit state passing).
    - A generator call that is drained by its caller is a [Run]: the parser
      as the call left it, the events yielded in order, and the exception
      that ended the call, if one did. *)

From Stdlib Require Import ZArith Lia Strings.Byte Strings.String Strings.Ascii.
From stdpp Require Import base decidable option list.

#[local] Open Scope Z_scope.

(** ** Bytes, literals and builtins *)

Abbreviation bytes := (list byte).

#[global] Instance byte_eq_dec : EqDecision byte := Byte.byte_eq_dec.

(** [ord]: the integer value of a byte. *)
Definition ord (b : byte) : Z := Z.of_N (Byte.to_N b).

(** The inverse of [ord] on [0..255]. *)
Definition chr (z : Z) : byte :=
  match Byte.of_N (Z.to_N z) with
  | Some b => b
  | None => x00
  end.

(** A Python bytes literal [b'...'] with the escapes the sources use:
    backslash followed by [r], [n], [t], or a backslash. *)
Fixpoint bytes_lit (s : string) : bytes :=
  match s with
  | EmptyString => []
  | String c EmptyString => [byte_of_ascii c]
  | String c (String d rest as tl) =>
      if Ascii.eqb c "\" then
        if Ascii.eqb d "r" then x0d :: bytes_lit rest
        else if Ascii.eqb d "n" then x0a :: bytes_lit rest
        else if Ascii.eqb d "t" then x09 :: bytes_lit rest
        else if Ascii.eqb d "\" then x5c :: bytes_lit rest
        else byte_of_ascii c :: bytes_lit tl
      else byte_of_ascii c :: bytes_lit tl
  end.

(** A Python [str]: its code points. *)
Abbreviation str := (list N).

(** A [str] literal of ASCII characters. *)
Definition str_lit (s : string) : str :=
  map N_of_ascii (list_ascii_of_string s).

(** The exceptions the modelled code can raise. *)
Inductive Exn : Type :=
  | IndexError
  | UnicodeDecodeError
  | OverflowError.

#[global] Instance Exn_eq_dec : EqDecision Exn.
Proof. solve_decision. Defined.

(** [bytes.decode('utf-8')] (strict): the well-formed byte sequences of the
    Unicode standard, shortest form only, no surrogates, at most U+10FFFF.
    [None] stands for [UnicodeDecodeError]. *)
Definition in_range (lo hi : N) (b : byte) : bool :=
  ((lo <=? Byte.to_N b) && (Byte.to_N b <=? hi))%N.

Definition low6 (b : byte) : N := (Byte.to_N b - 128)%N.

Fixpoint utf8_decode (bs : bytes) : option str :=
  match bs with
  | [] => Some []
  | b0 :: rest =>
      let n0 := Byte.to_N b0 in
      if (n0 <? 128)%N then
        cons n0 <$> utf8_decode rest
      else if in_range 194 223 b0 then
        match rest with
        | b1 :: rest1 =>
            if in_range 128 191 b1
            then cons ((n0 - 192) * 64 + low6 b1)%N <$> utf8_decode rest1
            else None
        | _ => None
        end
      else if in_range 224 239 b0 then
        match rest with
        | b1 :: b2 :: rest2 =>
            if in_range (if (n0 =? 224)%N then 160 else 128)
                        (if (n0 =? 237)%N then 159 else 191) b1
               && in_range 128 191 b2
            then cons ((n0 - 224) * 4096 + low6 b1 * 64 + low6 b2)%N
                   <$> utf8_decode rest2
            else None
        | _ => None
        end
      else if in_range 240 244 b0 then
        match rest with
        | b1 :: b2 :: b3 :: rest3 =>
            if in_range (if (n0 =? 240)%N then 144 else 128)
                        (if (n0 =? 244)%N then 143 else 191) b1
               && in_range 128 191 b2 && in_range 128 191 b3
            then cons ((n0 - 240) * 262144 + low6 b1 * 4096
                       + low6 b2 * 64 + low6 b3)%N
                   <$> utf8_decode rest3
            else None
        | _ => None
        end
      else None
  end.

(** [buf[i] = b] on a bytearray: [None] stands for [IndexError]. *)
Definition setitem (buf : bytes) (i : nat) (b : byte) : option bytes :=
  if decide (i < length buf)%nat then Some (<[i:=b]> buf) else None.

(** [bytearray(n)]: [n] zero bytes. *)
Definition bytearray (n : nat) : bytes := replicate n x00.

(** ** parser.py *)

Module Parser.

(** The three event classes. *)
Inductive Event : Type :=
  | TextEvent (label value : str)
  | FrameEndEvent (valid : bool)
  | HexEvent (hex : bytes).

Inductive State : Type :=
  | IDLE
  | RECORD_LABEL
  | RECORD_VALUE
  | CHECKSUM
  | RECORD_HEX.

#[global] Instance State_eq_dec : EqDecision State.
Proof. solve_decision. Defined.

Definition MAX_FIELD_LABEL_LEN : nat := 9.
Definition MAX_FIELD_VALUE_LEN : nat := 33.
Definition MAX_HEX_RECORD_LEN : nat := 100.

(** The two class constants of the source; [receive_bytes] does not use
    them (it matches on the literals), and [TAB] is [ord(b'\n')] there. *)
Definition NEWLINE : Z := ord x0a.
Definition TAB : Z := ord x0a.

(** The instance attributes.  [attr_value_len] is the attribute
    [self._value_len] that line 139 creates (one underscore: it is not
    the name-mangled [self.__value_len]); it is absent until then. *)
Record VEDirectParser : Type := mkParser {
  label_buf : bytes;
  value_buf : bytes;
  hex_buf : bytes;
  label_len : nat;
  value_len : nat;
  current_index : nat;
  checksum : Z;
  state : State;
  attr_value_len : option nat
}.

Definition set_label_buf (v : bytes) (p : VEDirectParser) : VEDirectParser :=
  mkParser v (value_buf p) (hex_buf p) (label_len p) (value_len p)
           (current_index p) (checksum p) (state p) (attr_value_len p).
Definition set_value_buf (v : bytes) (p : VEDirectParser) : VEDirectParser :=
  mkParser (label_buf p) v (hex_buf p) (label_len p) (value_len p)
           (current_index p) (checksum p) (state p) (attr_value_len p).
Definition set_hex_buf (v : bytes) (p : VEDirectParser) : VEDirectParser :=
  mkParser (label_buf p) (value_buf p) v (label_len p) (value_len p)
           (current_index p) (checksum p) (state p) (attr_value_len p).
Definition set_label_len (v : nat) (p : VEDirectParser) : VEDirectParser :=
  mkParser (label_buf p) (value_buf p) (hex_buf p) v (value_len p)
           (current_index p) (checksum p) (state p) (attr_value_len p).
Definition set_value_len (v : nat) (p : VEDirectParser) : VEDirectParser :=
  mkParser (label_buf p) (value_buf p) (hex_buf p) (label_len p) v
           (current_index p) (checksum p) (state p) (attr_value_len p).
Definition set_current_index (v : nat) (p : VEDirectParser) : VEDirectParser :=
  mkParser (label_buf p) (value_buf p) (hex_buf p) (label_len p) (value_len p)
           v (checksum p) (state p) (attr_value_len p).
Definition set_checksum (v : Z) (p : VEDirectParser) : VEDirectParser :=
  mkParser (label_buf p) (value_buf p) (hex_buf p) (label_len p) (value_len p)
           (current_index p) v (state p) (attr_value_len p).
Definition set_state (v : State) (p : VEDirectParser) : VEDirectParser :=
  mkParser (label_buf p) (value_buf p) (hex_buf p) (label_len p) (value_len p)
           (current_index p) (checksum p) v (attr_value_len p).
Definition set_attr_value_len (v : option nat) (p : VEDirectParser) : VEDirectParser :=
  mkParser (label_buf p) (value_buf p) (hex_buf p) (label_len p) (value_len p)
           (current_index p) (checksum p) (state p) v.

(** [VEDirectParser.__init__]. *)
Definition init : VEDirectParser :=
  {| label_buf := bytearray MAX_FIELD_LABEL_LEN;
     value_buf := bytearray MAX_FIELD_VALUE_LEN;
     hex_buf := bytearray MAX_HEX_RECORD_LEN;
     label_len := 0;
     value_len := 0;
     current_index := 0;
     checksum := 0;
     state := IDLE;
     attr_value_len := None |}.

(** What a drained generator call leaves behind. *)
Record Run : Type := mkRun {
  final : VEDirectParser;
  yielded : list Event;
  raised : option Exn
}.

Definition ret (p : VEDirectParser) : Run := mkRun p [] None.
Definition yield (e : Event) (p : VEDirectParser) : Run := mkRun p [e] None.
Definition raise (e : Exn) (p : VEDirectParser) : Run := mkRun p [] (Some e).

(** Sequencing: an exception ends the call, what was yielded before it
    stays yielded. *)
Definition and_then (r : Run) (k : VEDirectParser -> Run) : Run :=
  match raised r with
  | Some _ => r
  | None =>
      let r' := k (final r) in
      mkRun (final r') (yielded r ++ yielded r') (raised r')
  end.

Notation "r >>> k" := (and_then r k) (at level 61, left associativity).

(** Lines 109-113: the two [if] statements ahead of the [match]. *)
Definition enter_hex (self : VEDirectParser) (byte : byte) : VEDirectParser :=
  if bool_decide (byte = ":"%byte) && negb (bool_decide (state self = CHECKSUM))
  then set_state RECORD_HEX (set_current_index 0%nat self)
  else self.

Definition add_checksum (self : VEDirectParser) (byte : byte) : VEDirectParser :=
  if negb (bool_decide (state self = RECORD_HEX))
  then set_checksum (checksum self + ord byte) self
  else self.

(** Lines 115-157: the [match] statement, its cases in the order of the
    source; a (state, byte) pair that no case matches falls through. *)
Definition dispatch (self : VEDirectParser) (byte : byte) : Run :=
  match state self with
  | IDLE =>
      if bool_decide (byte = x0a) then ret (set_state RECORD_LABEL self)
      else if bool_decide (byte = x0d) then ret self
      else ret self
  | RECORD_LABEL =>
      if bool_decide (byte = x09) then
        if bool_decide (take (current_index self) (label_buf self)
                        = bytes_lit "Checksum")
        then ret (set_state CHECKSUM self)
        else ret (set_state RECORD_VALUE
                   (set_current_index 0%nat
                     (set_label_len (current_index self) self)))
      else
        match setitem (label_buf self) (current_index self) byte with
        | None => raise IndexError self
        | Some buf =>
            ret (set_current_index (S (current_index self))
                  (set_label_buf buf self))
        end
  | RECORD_VALUE =>
      if bool_decide (byte = x0d) then ret self
      else if bool_decide (byte = x0a) then
        let self := set_value_len (current_index self) self in
        match utf8_decode (take (label_len self) (label_buf self)) with
        | None => raise UnicodeDecodeError self
        | Some label =>
            match utf8_decode (take (value_len self) (value_buf self)) with
            | None => raise UnicodeDecodeError self
            | Some value =>
                yield (TextEvent label value)
                  (set_state RECORD_LABEL
                    (set_attr_value_len (Some 0%nat)
                      (set_label_len 0%nat
                        (set_current_index 0%nat self))))
            end
        end
      else
        match setitem (value_buf self) (current_index self) byte with
        | None => raise IndexError self
        | Some buf =>
            ret (set_current_index (S (current_index self))
                  (set_value_buf buf self))
        end
  | CHECKSUM =>
      let valid := bool_decide (checksum self mod 256 = 0) in
      yield (FrameEndEvent valid) (set_state IDLE (set_checksum 0 self))
  | RECORD_HEX =>
      if bool_decide (byte = x0a)
      then yield (HexEvent (take (current_index self) (hex_buf self))) self
      else if bool_decide (byte ≠ ":"%byte) then
        match setitem (hex_buf self) (current_index self) byte with
        | None => raise IndexError self
        | Some buf =>
            ret (set_current_index (S (current_index self))
                  (set_hex_buf buf self))
        end
      else ret self
  end.

(** One iteration of the [for] loop of [receive_bytes]. *)
Definition step (self : VEDirectParser) (byte : byte) : Run :=
  dispatch (add_checksum (enter_hex self byte) byte) byte.

(** [VEDirectParser.receive_bytes], drained. *)
Fixpoint receive_bytes (self : VEDirectParser) (input : bytes) : Run :=
  match input with
  | [] => ret self
  | byte :: rest => step self byte >>> fun self' => receive_bytes self' rest
  end.

(** Successive calls on the same parser, one per chunk, each drained before
    the next; an exception propagates out of the sequence of calls. *)
Fixpoint feed_chunks (self : VEDirectParser) (chunks : list bytes) : Run :=
  match chunks with
  | [] => ret self
  | chunk :: more =>
      receive_bytes self chunk >>> fun self' => feed_chunks self' more
  end.

End Parser.

(** ** hex_protocol.py *)

Module HexProtocol.

Inductive HexRequestType : Type :=
  | PING
  | APP_VERSION
  | PRODUCT_ID
  | RESTART
  | GET
  | SET
  | ASYNC.

(** [HexRequestType.value]: the [ord] of the tag character. *)
Definition value_of (t : HexRequestType) : byte :=
  match t with
  | PING => "1"%byte
  | APP_VERSION => "3"%byte
  | PRODUCT_ID => "4"%byte
  | RESTART => "6"%byte
  | GET => "7"%byte
  | SET => "8"%byte
  | ASYNC => "A"%byte
  end.

(** The concrete subclasses of [HexDataRequest]; each instance holds the
    one dataclass field [payload : Optional[bytes]]. *)
Inductive HexDataRequest : Type :=
  | PingRequest (payload : option bytes)
  | AppVersionRequest (payload : option bytes)
  | ProductIdRequest (payload : option bytes)
  | RestartRequest (payload : option bytes)
  | GetRequest (payload : option bytes)
  | SetRequest (payload : option bytes)
  | AsyncRequest (payload : option bytes).

Definition payload (self : HexDataRequest) : option bytes :=
  match self with
  | PingRequest p | AppVersionRequest p | ProductIdRequest p
  | RestartRequest p | GetRequest p | SetRequest p | AsyncRequest p => p
  end.

(** The static method [type()] of each subclass. *)
Definition type (self : HexDataRequest) : HexRequestType :=
  match self with
  | PingRequest _ => PING
  | AppVersionRequest _ => APP_VERSION
  | ProductIdRequest _ => PRODUCT_ID
  | RestartRequest _ => RESTART
  | GetRequest _ => GET
  | SetRequest _ => SET
  | AsyncRequest _ => ASYNC
  end.

(** [bytes.hex()]: two lowercase hexadecimal digits per byte, the high
    nibble first. *)
Definition hex_digit (n : Z) : ascii :=
  if n <? 10 then ascii_of_N (Z.to_N (48 + n))
  else ascii_of_N (Z.to_N (97 + (n - 10))).

Fixpoint hex (bs : bytes) : string :=
  match bs with
  | [] => EmptyString
  | b :: rest =>
      String (hex_digit (ord b / 16)) (String (hex_digit (ord b mod 16)) (hex rest))
  end.

(** [str.encode('ascii')] on a string of ASCII characters. *)
Definition encode_ascii (s : string) : bytes := list_byte_of_string s.

(** [bytes.upper()]: the ASCII letters a-z to A-Z, the rest as it is. *)
Definition upper_byte (b : byte) : byte :=
  if (97 <=? ord b) && (ord b <=? 122) then chr (ord b - 32) else b.

Definition upper (bs : bytes) : bytes := map upper_byte bs.

(** Slice assignment [buf[lo:hi] = v] and [buf[lo:] = v] on a bytearray
    (for [lo <= hi <= len(buf)]). *)
Definition setslice (buf : bytes) (lo hi : nat) (v : bytes) : bytes :=
  take lo buf ++ v ++ drop hi buf.

Definition setslice_from (buf : bytes) (lo : nat) (v : bytes) : bytes :=
  setslice buf lo (length buf) v.

(** [HexDataRequest.serialize]. *)
Definition serialize (self : HexDataRequest) : bytes :=
  let payload_len :=
    match payload self with Some p => length p | None => 0%nat end in
  let buf := bytearray (2 + payload_len * 2) in
  let buf := <[0%nat := ":"%byte]> buf in
  let buf := <[1%nat := value_of (type self)]> buf in
  match payload self with
  | Some p =>
      if (0 <? payload_len)%nat
      then setslice_from buf 2 (upper (encode_ascii (hex p)))
      else buf
  | None => buf
  end.

(** [int.to_bytes(2, 'little')]: [None] stands for [OverflowError]. *)
Definition to_bytes_2_little (n : Z) : option bytes :=
  if (0 <=? n) && (n <? 65536) then Some [chr (n mod 256); chr (n / 256)]
  else None.

Definition ping_request : HexDataRequest := PingRequest None.
Definition app_version_request : HexDataRequest := AppVersionRequest None.
Definition product_id_request : HexDataRequest := ProductIdRequest None.
Definition restart_request : HexDataRequest := RestartRequest None.



(** As in the source, this builds a [SetRequest]. *)
Definition async_request (value_id : Z) (value : bytes) : option HexDataRequest :=
  let buf := bytearray (2 + 1 + length value) in
  id_bytes ← to_bytes_2_little value_id;
  let buf := setslice buf 0 2 id_bytes in
  let buf := setslice_from buf 3 value in
  Some (SetRequest (Some buf)).

End HexProtocol.

(** ** unit_test.py *)

Module UnitTest.
Import Parser.

Definition MPPT_SAMPLE : bytes :=
  bytes_lit "\r\nPID\t0xA042\r\nFW\t116\r\nSER#\tHQ1636WR7KW\r\nV\t11020"
  ++ bytes_lit "\r\nI\t0\r\nVPV\t12300\r\nPPV\t0\r\nCS\t0\r\nERR\t0\r\nLOAD\tON\r\nIL\t0"
  ++ bytes_lit "\r\nH19\t327\r\nH20\t0\r\nH21\t0\r\nH22\t0\r\nH23\t0\r\nHSDS\t35\r\nChecksum\tr".

Definition MPPT_SAMPLE_FIELDS : list Event :=
  [ TextEvent (str_lit "PID") (str_lit "0xA042");
    TextEvent (str_lit "FW") (str_lit "116");
    TextEvent (str_lit "SER#") (str_lit "HQ1636WR7KW");
    TextEvent (str_lit "V") (str_lit "11020");
    TextEvent (str_lit "I") (str_lit "0");
    TextEvent (str_lit "VPV") (str_lit "12300");
    TextEvent (str_lit "PPV") (str_lit "0");
    TextEvent (str_lit "CS") (str_lit "0");
    TextEvent (str_lit "ERR") (str_lit "0");
    TextEvent (str_lit "LOAD") (str_lit "ON");
    TextEvent (str_lit "IL") (str_lit "0");
    TextEvent (str_lit "H19") (str_lit "327");
    TextEvent (str_lit "H20") (str_lit "0");
    TextEvent (str_lit "H21") (str_lit "0");
    TextEvent (str_lit "H22") (str_lit "0");
    TextEvent (str_lit "H23") (str_lit "0");
    TextEvent (str_lit "HSDS") (str_lit "35");
    FrameEndEvent true ].

End UnitTest.

(** ** Vocabulary of the specification *)

Module FrameSpec.
Import Parser.

(** The sum of the integer values of a byte sequence. *)
Definition byte_sum (bs : bytes) : Z := foldr (λ b acc, ord b + acc) 0 bs.

(** A byte is consumed in the Hex state when, once the colon test of
    line 109 has run, the parser is in [RECORD_HEX]: the colon that opens a
    hex record is. *)
Definition hex_consumed (self : VEDirectParser) (byte : byte) : bool :=
  bool_decide (state (enter_hex self byte) = RECORD_HEX).

(** The checksum-eligible bytes of an input: those not consumed in the Hex
    state, in order. *)
Fixpoint eligible_bytes (self : VEDirectParser) (input : bytes) : bytes :=
  match input with
  | [] => []
  | b :: rest =>
      (if hex_consumed self b then [] else [b])
      ++ eligible_bytes (final (step self b)) rest
  end.

(** [frame] is one complete text frame for [self]: the call on it does not
    raise, and it yields a frame end on the last byte of [frame] and on no
    byte before. *)
Definition complete_frame
    (self : VEDirectParser) (frame : bytes) (valid : bool) : Prop :=
  ∃ pre last,
    frame = pre ++ [last]
    ∧ raised (receive_bytes self frame) = None
    ∧ (∀ v, FrameEndEvent v ∉ yielded (receive_bytes self pre))
    ∧ yielded (step (final (receive_bytes self pre)) last)
      = [FrameEndEvent valid].

(** The buffers have the sizes [__init__] gave them. *)
Definition allocated (self : VEDirectParser) : Prop :=
  length (label_buf self) = MAX_FIELD_LABEL_LEN
  ∧ length (value_buf self) = MAX_FIELD_VALUE_LEN
  ∧ length (hex_buf self) = MAX_HEX_RECORD_LEN.

(** [byte] has to be stored in a buffer that is full: the label buffer in
    [RECORD_LABEL], the value buffer in [RECORD_VALUE], the hex buffer in
    [RECORD_HEX]. *)
Definition overflows (self : VEDirectParser) (byte : byte) : Prop :=
  byte ≠ ":"%byte
  ∧ ((state self = RECORD_LABEL ∧ byte ≠ x09
      ∧ (MAX_FIELD_LABEL_LEN ≤ current_index self)%nat)
     ∨ (state self = RECORD_VALUE ∧ byte ≠ x0d ∧ byte ≠ x0a
        ∧ (MAX_FIELD_VALUE_LEN ≤ current_index self)%nat)
     ∨ (state self = RECORD_HEX ∧ byte ≠ x0a
        ∧ (MAX_HEX_RECORD_LEN ≤ current_index self)%nat)).

(** The value's newline arrives and the label or the value read so far is
    not UTF-8. *)
Definition undecodable (self : VEDirectParser) (byte : byte) : Prop :=
  state self = RECORD_VALUE ∧ byte = x0a
  ∧ (utf8_decode (take (label_len self) (label_buf self)) = None
     ∨ utf8_decode (take (current_index self) (value_buf self)) = None).

Definition is_hex_event (e : Event) : Prop :=
  match e with HexEvent _ => True | _ => False end.

Definition is_text_event (e : Event) : Prop :=
  match e with TextEvent _ _ => True | _ => False end.

Definition is_frame_end (e : Event) : Prop :=
  match e with FrameEndEvent _ => True | _ => False end.

End FrameSpec.

(** ** The transitions of the parser, case by case *)

Module Transitions.
Import Parser.

(** The parser once [byte] is added to the running sum (line 113). *)
Definition summed (p : VEDirectParser) (b : byte) : VEDirectParser :=
  set_checksum (checksum p + ord b) p.

(** The parser with [k] more in its running sum. *)
Definition shifted (k : Z) (p : VEDirectParser) : VEDirectParser :=
  set_checksum (checksum p + k) p.

(** The frozen value length and the reset after a text event
    (lines 132 and 139-140). *)
Definition frozen (p : VEDirectParser) (b : byte) : VEDirectParser :=
  set_value_len (current_index p) (summed p b).

Definition after_text (p : VEDirectParser) (b : byte) : VEDirectParser :=
  set_state RECORD_LABEL
    (set_attr_value_len (Some 0%nat)
      (set_label_len 0%nat (set_current_index 0%nat (frozen p b)))).

(** [transition p b r]: from [p], the byte [b] takes the loop body to the
    run [r].  One constructor per path through lines 109-157. *)
Inductive transition (p : VEDirectParser) (b : byte) : Run → Prop :=
  | T_colon :
      b = ":"%byte → state p ≠ CHECKSUM →
      transition p b (ret (set_state RECORD_HEX (set_current_index 0%nat p)))
  | T_idle_newline :
      state p = IDLE → b = x0a →
      transition p b (ret (set_state RECORD_LABEL (summed p b)))
  | T_idle_other :
      state p = IDLE → b ≠ x0a → b ≠ ":"%byte →
      transition p b (ret (summed p b))
  | T_label_checksum :
      state p = RECORD_LABEL → b = x09 →
      take (current_index p) (label_buf p) = bytes_lit "Checksum" →
      transition p b (ret (set_state CHECKSUM (summed p b)))
  | T_label_tab :
      state p = RECORD_LABEL → b = x09 →
      take (current_index p) (label_buf p) ≠ bytes_lit "Checksum" →
      transition p b
        (ret (set_state RECORD_VALUE
               (set_current_index 0%nat
                 (set_label_len (current_index p) (summed p b)))))
  | T_label_store :
      state p = RECORD_LABEL → b ≠ x09 → b ≠ ":"%byte →
      (current_index p < length (label_buf p))%nat →
      transition p b
        (ret (set_current_index (S (current_index p))
               (set_label_buf (<[current_index p := b]> (label_buf p))
                 (summed p b))))
  | T_label_overflow :
      state p = RECORD_LABEL → b ≠ x09 → b ≠ ":"%byte →
      (length (label_buf p) ≤ current_index p)%nat →
      transition p b (raise IndexError (summed p b))
  | T_value_cr :
      state p = RECORD_VALUE → b = x0d →
      transition p b (ret (summed p b))
  | T_value_newline label value :
      state p = RECORD_VALUE → b = x0a →
      utf8_decode (take (label_len p) (label_buf p)) = Some label →
      utf8_decode (take (current_index p) (value_buf p)) = Some value →
      transition p b (yield (TextEvent label value) (after_text p b))
  | T_value_undecodable :
      state p = RECORD_VALUE → b = x0a →
      utf8_decode (take (label_len p) (label_buf p)) = None
      ∨ utf8_decode (take (current_index p) (value_buf p)) = None →
      transition p b (raise UnicodeDecodeError (frozen p b))
  | T_value_store :
      state p = RECORD_VALUE → b ≠ x0d → b ≠ x0a → b ≠ ":"%byte →
      (current_index p < length (value_buf p))%nat →
      transition p b
        (ret (set_current_index (S (current_index p))
               (set_value_buf (<[current_index p := b]> (value_buf p))
                 (summed p b))))
  | T_value_overflow :
      state p = RECORD_VALUE → b ≠ x0d → b ≠ x0a → b ≠ ":"%byte →
      (length (value_buf p) ≤ current_index p)%nat →
      transition p b (raise IndexError (summed p b))
  | T_checksum :
      state p = CHECKSUM →
      transition p b
        (yield (FrameEndEvent (bool_decide ((checksum p + ord b) mod 256 = 0)))
           (set_state IDLE (set_checksum 0 (summed p b))))
  | T_hex_newline :
      state p = RECORD_HEX → b = x0a →
      transition p b (yield (HexEvent (take (current_index p) (hex_buf p))) p)
  | T_hex_store :
      state p = RECORD_HEX → b ≠ x0a → b ≠ ":"%byte →
      (current_index p < length (hex_buf p))%nat →
      transition p b
        (ret (set_current_index (S (current_index p))
               (set_hex_buf (<[current_index p := b]> (hex_buf p)) p)))
  | T_hex_overflow :
      state p = RECORD_HEX → b ≠ x0a → b ≠ ":"%byte →
      (length (hex_buf p) ≤ current_index p)%nat →
      transition p b (raise IndexError p).

End Transitions.

(** ** hex_protocol.py: the properties of the request classes *)

Module HexFields.
Import HexProtocol.

(** What reading a property can raise: [TypeError] where the payload is
    [None], [AttributeError] where the class has no such property. *)
Inductive AccessError : Type :=
  | TypeError
  | AttributeError.

(** [int.from_bytes(bs, 'little')]. *)
Definition from_bytes_little (bs : bytes) : Z :=
  foldr (λ b acc, ord b + 256 * acc) 0 bs.

(** The property [value_id] of [GetRequest], [SetRequest] and
    [AsyncRequest]: [int.from_bytes(memoryview(self.payload)[:2], 'little')]. *)
Definition value_id (self : HexDataRequest) : AccessError + Z :=
  match self with
  | GetRequest p | SetRequest p | AsyncRequest p =>
      match p with
      | Some bs => inr (from_bytes_little (take 2 bs))
      | None => inl TypeError
      end
  | _ => inl AttributeError
  end.

(** The property [value] of [SetRequest] and [AsyncRequest]:
    [self.payload[3:]]. *)
Definition value (self : HexDataRequest) : AccessError + bytes :=
  match self with
  | SetRequest p | AsyncRequest p =>
      match p with
      | Some bs => inr (drop 3 bs)
      | None => inl TypeError
      end
  | _ => inl AttributeError
  end.

End HexFields.

(** ** Vocabulary for the wire formats *)

Module WireFormat.
Import Parser HexProtocol.


(** The sixteen uppercase hexadecimal digits. *)
Definition is_upper_hex (b : byte) : Prop :=
  b ∈ bytes_lit "0123456789ABCDEF".

#[global] Instance is_upper_hex_dec (b : byte) : Decision (is_upper_hex b).
Proof. unfold is_upper_hex. apply _. Defined.





(** One field of a text frame on the wire, and a frame: the fields, each
    ended by carriage return and newline, after a leading carriage return
    and newline, then the label [Checksum], a tab and the checksum byte. *)
Definition field_bytes (f : bytes * bytes) : bytes :=
  fst f ++ [x09] ++ snd f ++ [x0d; x0a].

Definition frame_body (fields : list (bytes * bytes)) : bytes :=
  [x0d; x0a] ++ concat (map field_bytes fields) ++ bytes_lit "Checksum\t".

Definition frame_bytes (fields : list (bytes * bytes)) (c : byte) : bytes :=
  frame_body fields ++ [c].

(** The bytes of a value that reach the value buffer: all but the carriage
    returns. *)
Definition stored_value (value : bytes) : bytes :=
  filter (λ b, b ≠ x0d) value.

(** The text event of a field, where label and value are UTF-8. *)
Definition decoded_field (f : bytes * bytes) : option Event :=
  match utf8_decode (fst f), utf8_decode (stored_value (snd f)) with
  | Some l, Some v => Some (TextEvent l v)
  | _, _ => None
  end.

(** A field the parser reads as such: the label fits its buffer, has no tab
    and no colon and is not [Checksum]; the value has no newline and no
    colon and what is stored of it fits its buffer; both are UTF-8. *)
Definition well_formed_field (f : bytes * bytes) : Prop :=
  (length (fst f) ≤ MAX_FIELD_LABEL_LEN)%nat
  ∧ (x09 ∉ fst f) ∧ (":"%byte ∉ fst f) ∧ fst f ≠ bytes_lit "Checksum"
  ∧ (x0a ∉ snd f) ∧ (":"%byte ∉ snd f)
  ∧ (length (stored_value (snd f)) ≤ MAX_FIELD_VALUE_LEN)%nat
  ∧ is_Some (decoded_field f).

(** The sizes an event can have: a label of at most 9 characters, a value
    of at most 33, a hex record of at most 100 bytes. *)
Definition within_bounds (e : Event) : Prop :=
  match e with
  | TextEvent l v =>
      (length l ≤ MAX_FIELD_LABEL_LEN)%nat ∧ (length v ≤ MAX_FIELD_VALUE_LEN)%nat
  | FrameEndEvent _ => True
  | HexEvent h => (length h ≤ MAX_HEX_RECORD_LEN)%nat
  end.

#[global] Instance well_formed_field_dec (f : bytes * bytes) :
  Decision (well_formed_field f).
Proof. unfold well_formed_field. apply _. Defined.

(** [buf] with [bs] written from index [i] on. *)
Definition written (buf : bytes) (i : nat) (bs : bytes) : bytes :=
  take i buf ++ bs ++ drop (i + length bs) buf.

(** The hex events of an input read in [RECORD_HEX], [acc] being what the
    hex buffer holds below the index: a colon empties it, a newline yields
    it and keeps it, any other byte is added to it. *)
Fixpoint hex_record_events (acc : bytes) (input : bytes) : list Event :=
  match input with
  | [] => []
  | b :: rest =>
      if bool_decide (b = ":"%byte) then hex_record_events [] rest
      else if bool_decide (b = x0a) then HexEvent acc :: hex_record_events acc rest
      else hex_record_events (acc ++ [b]) rest
  end.

End WireFormat.

(** * Properties *)

(** Closes a goal made of conjunctions and disjunctions of facts at hand. *)
Ltac pick_branch :=
  solve [ done | congruence | lia
        | left; pick_branch | right; pick_branch | split; pick_branch ].


(** ** Sequencing of runs *)

Section RunAlgebra.
Import Parser.

Lemma and_then_ret_l (p : VEDirectParser) (k : VEDirectParser -> Run) :
  (ret p >>> k) = k p.
Proof. unfold and_then; simpl. by destruct (k p). Qed.

Lemma and_then_ret_r (r : Run) : (r >>> ret) = r.
Proof.
  destruct r as [p evs [e|]]; unfold and_then; simpl; [done|].
  by rewrite app_nil_r.
Qed.

Lemma and_then_assoc (r : Run) (k1 k2 : VEDirectParser -> Run) :
  (r >>> k1 >>> k2) = (r >>> fun p => k1 p >>> k2).
Proof.
  destruct r as [p evs [e|]]; unfold and_then; simpl; [done|].
  destruct (k1 p) as [p1 evs1 [e1|]]; simpl; [done|].
  by rewrite app_assoc.
Qed.

Lemma and_then_ext (r : Run) (k1 k2 : VEDirectParser -> Run) :
  (∀ p, k1 p = k2 p) → (r >>> k1) = (r >>> k2).
Proof. intros H. unfold and_then. by rewrite H. Qed.

(** A call on [a ++ b] is the call on [a] followed by the call on [b]. *)
Lemma receive_bytes_app (a b : bytes) (self : VEDirectParser) :
  receive_bytes self (a ++ b)
  = (receive_bytes self a >>> fun self' => receive_bytes self' b).
Proof.
  revert self. induction a as [|x a IH]; intros self; simpl.
  - by rewrite and_then_ret_l.
  - rewrite and_then_assoc. apply and_then_ext. intros p. apply IH.
Qed.

(** What a run that did not raise looks like after one more byte. *)
Lemma receive_bytes_snoc (pre : bytes) (b : byte) (self : VEDirectParser) :
  raised (receive_bytes self pre) = None →
  receive_bytes self (pre ++ [b])
  = mkRun (final (step (final (receive_bytes self pre)) b))
          (yielded (receive_bytes self pre)
           ++ yielded (step (final (receive_bytes self pre)) b))
          (raised (step (final (receive_bytes self pre)) b)).
Proof.
  intros Hok. rewrite receive_bytes_app.
  rewrite (and_then_ext _ _ (λ p, step p b)).
  - unfold and_then. by rewrite Hok.
  - intros p. simpl. apply and_then_ret_r.
Qed.

(** A run that did not raise did not raise on any prefix. *)
Lemma receive_bytes_prefix_ok (a b : bytes) (self : VEDirectParser) :
  raised (receive_bytes self (a ++ b)) = None →
  raised (receive_bytes self a) = None.
Proof.
  rewrite receive_bytes_app. unfold and_then.
  destruct (raised (receive_bytes self a)) eqn:E; [|done].
  by rewrite E.
Qed.

End RunAlgebra.

(** ** C2: the streaming invariant *)

Section Streaming.
Import Parser.

(** C2.  For every parser, every byte sequence and every way of cutting it
    into consecutive chunks, the calls of [receive_bytes] on the chunks, one
    after the other and each drained, yield the events that one call on the
    whole sequence yields, in the same order; they also leave the same
    parser behind and end in the same way. *)
Theorem streaming_invariant (self : VEDirectParser) (chunks : list bytes) :
  feed_chunks self chunks = receive_bytes self (concat chunks).
Proof.
  revert self. induction chunks as [|c cs IH]; intros self; simpl; [done|].
  rewrite receive_bytes_app. apply and_then_ext. intros p. apply IH.
Qed.

End Streaming.

(** ** C7, C6: request serialization *)

Section Requests.
Import HexProtocol.


(** Whatever the register id and the value, [async_request] builds a
    request whose type is [SET]. *)
Lemma async_request_type (value_id : Z) (value : bytes) (r : HexDataRequest) :
  async_request value_id value = Some r → type r = SET.
Proof.
  unfold async_request. destruct (to_bytes_2_little value_id); simpl; [|done].
  by intros [= <-].
Qed.

(** The payload that [async_request] builds is the one the Async request
    is to carry: the id in two bytes, low byte first, a zero byte, and the
    value. *)
Lemma async_request_payload (value_id : Z) (value : bytes) :
  0 <= value_id < 65536 →
  async_request value_id value
  = Some (SetRequest
            (Some ([chr (value_id mod 256); chr (value_id / 256); x00] ++ value))).
Proof.
  intros Hid. unfold async_request, to_bytes_2_little.
  replace ((0 <=? value_id) && (value_id <? 65536)) with true
    by (symmetry; apply andb_true_intro; split; lia).
  simpl. unfold setslice_from, setslice. simpl.
  by rewrite length_replicate, drop_replicate, Nat.sub_diag, app_nil_r.
Qed.

(** C6, on the code.  The request that [async_request] builds for register
    [0x0100] and an empty value serializes to [:8000100]: its tag is the
    one of Set, ['8'], where the Async tag ['A'] was to be expected. *)
Theorem async_request_serializes_with_set_tag :
  serialize <$> async_request 0x0100 [] = Some (bytes_lit ":8000100")
  ∧ serialize (AsyncRequest (Some [x00; x01; x00])) = bytes_lit ":A000100".
Proof. split; reflexivity. Qed.

End Requests.

(** ** C8: the telemetry sample of the unit test *)

Section Sample.
Import Parser UnitTest.

(** C8.  On the sample frame a fresh parser yields, in order, the seventeen
    text events from [PID] to [HSDS] and then [FrameEndEvent true], and
    nothing else; the call does not raise. *)
Theorem test_single_frame :
  yielded (receive_bytes init MPPT_SAMPLE) = MPPT_SAMPLE_FIELDS
  ∧ raised (receive_bytes init MPPT_SAMPLE) = None
  ∧ length MPPT_SAMPLE_FIELDS = 18%nat.
Proof. vm_compute. done. Qed.

End Sample.

(** ** One step of the loop *)

Section StepFacts.
Import Parser FrameSpec Transitions.

Lemma enter_hex_colon (p : VEDirectParser) :
  state p ≠ CHECKSUM →
  enter_hex p ":"%byte = set_state RECORD_HEX (set_current_index 0%nat p).
Proof.
  intros H. unfold enter_hex.
  by rewrite bool_decide_true, (bool_decide_false (state p = CHECKSUM)).
Qed.

Lemma enter_hex_checksum (p : VEDirectParser) (b : byte) :
  state p = CHECKSUM → enter_hex p b = p.
Proof.
  intros H. unfold enter_hex.
  by rewrite (bool_decide_true (state p = CHECKSUM)), andb_false_r.
Qed.

Lemma enter_hex_other (p : VEDirectParser) (b : byte) :
  b ≠ ":"%byte → enter_hex p b = p.
Proof. intros H. unfold enter_hex. by rewrite bool_decide_false. Qed.

Lemma add_checksum_hex (p : VEDirectParser) (b : byte) :
  state p = RECORD_HEX → add_checksum p b = p.
Proof. intros H. unfold add_checksum. by rewrite bool_decide_true. Qed.

Lemma add_checksum_text (p : VEDirectParser) (b : byte) :
  state p ≠ RECORD_HEX → add_checksum p b = summed p b.
Proof. intros H. unfold add_checksum. by rewrite bool_decide_false. Qed.

(** The loop body follows the transition relation. *)
Lemma stepP (p : VEDirectParser) (b : byte) : transition p b (step p b).
Proof.
  unfold step.
  destruct (decide (state p = CHECKSUM)) as [Hc|Hc].
  { rewrite enter_hex_checksum, add_checksum_text by congruence.
    unfold dispatch. simpl. rewrite Hc. by apply T_checksum. }
  destruct (decide (b = ":"%byte)) as [->|Hb].
  { rewrite enter_hex_colon, add_checksum_hex by done.
    unfold dispatch. simpl. by apply T_colon. }
  rewrite enter_hex_other by done.
  destruct (state p) eqn:Hs; [| | |done|].
  - rewrite add_checksum_text by congruence.
    unfold dispatch. simpl. rewrite Hs.
    repeat case_bool_decide; by constructor.
  - rewrite add_checksum_text by congruence.
    unfold dispatch, setitem. simpl. rewrite Hs.
    repeat case_bool_decide; try by constructor.
    case_decide; constructor; (done || lia).
  - rewrite add_checksum_text by congruence.
    unfold dispatch, setitem. simpl. rewrite Hs.
    repeat case_bool_decide; try by constructor.
    + destruct (utf8_decode (take (label_len p) (label_buf p))) as [l|] eqn:El;
        [|by apply T_value_undecodable; auto].
      destruct (utf8_decode (take (current_index p) (value_buf p))) as [v|] eqn:Ev;
        [|by apply T_value_undecodable; auto].
      by apply T_value_newline.
    + case_decide; constructor; (done || lia).
  - rewrite add_checksum_hex by done.
    unfold dispatch, setitem. rewrite Hs.
    repeat case_bool_decide; try (by constructor); try congruence.
    case_decide; constructor; (done || lia).
Qed.

Lemma hex_consumed_colon (p : VEDirectParser) :
  state p ≠ CHECKSUM → hex_consumed p ":"%byte = true.
Proof. intros H. unfold hex_consumed. by rewrite enter_hex_colon. Qed.

Lemma hex_consumed_other (p : VEDirectParser) (b : byte) :
  b ≠ ":"%byte → hex_consumed p b = bool_decide (state p = RECORD_HEX).
Proof. intros H. unfold hex_consumed. by rewrite enter_hex_other. Qed.

Lemma hex_consumed_checksum (p : VEDirectParser) (b : byte) :
  state p = CHECKSUM → hex_consumed p b = false.
Proof.
  intros H. unfold hex_consumed. rewrite enter_hex_checksum by done.
  rewrite bool_decide_false; congruence.
Qed.

Lemma hex_consumed_in (p : VEDirectParser) (b : byte) (s : State) :
  state p = s → s ≠ RECORD_HEX → b ≠ ":"%byte → hex_consumed p b = false.
Proof.
  intros H1 H2 H3. rewrite hex_consumed_other by done.
  rewrite bool_decide_false; congruence.
Qed.

Lemma hex_consumed_hex (p : VEDirectParser) (b : byte) :
  state p = RECORD_HEX → hex_consumed p b = true.
Proof.
  intros H. destruct (decide (b = ":"%byte)) as [->|Hb].
  - apply hex_consumed_colon. congruence.
  - rewrite hex_consumed_other by done. by rewrite bool_decide_true.
Qed.

(** The loop body yields at most one event. *)
Lemma step_yields_at_most_one (p : VEDirectParser) (b : byte) :
  yielded (step p b) = [] ∨ ∃ e, yielded (step p b) = [e].
Proof. destruct (stepP p b); simpl; eauto. Qed.

(** A frame end is yielded in the [CHECKSUM] state and nowhere else; its
    flag is the test of the sum that includes the byte just read, and the
    parser is then idle with a zero sum. *)
Lemma step_frame_end (p : VEDirectParser) (b : byte) (v : bool) :
  FrameEndEvent v ∈ yielded (step p b) →
  state p = CHECKSUM
  ∧ v = bool_decide ((checksum p + ord b) mod 256 = 0)
  ∧ step p b = yield (FrameEndEvent v)
                 (set_state IDLE (set_checksum 0 (summed p b))).
Proof.
  destruct (stepP p b); simpl; intros Hin;
    try (by apply elem_of_nil in Hin);
    apply list_elem_of_singleton in Hin; try done.
  by injection Hin as ->.
Qed.

(** Where no frame end is yielded, the running sum grows by the byte read
    unless the byte is consumed in the Hex state. *)
Lemma step_checksum (p : VEDirectParser) (b : byte) :
  (∀ v, FrameEndEvent v ∉ yielded (step p b)) →
  checksum (final (step p b))
  = checksum p + (if hex_consumed p b then 0 else ord b).
Proof.
  destruct (stepP p b); subst; simpl; intros Hno;
    first [ rewrite hex_consumed_colon by congruence
          | rewrite hex_consumed_checksum by done
          | rewrite hex_consumed_hex by done
          | erewrite hex_consumed_in by (eassumption || congruence) ];
    try lia.
  exfalso. eapply Hno. by left.
Qed.

(** The [CHECKSUM] state is entered by the tab that follows the label
    [Checksum], and in no other way. *)
Lemma step_enters_checksum (p : VEDirectParser) (b : byte) :
  state (final (step p b)) = CHECKSUM →
  b = x09 ∧ state p = RECORD_LABEL
  ∧ take (current_index p) (label_buf p) = bytes_lit "Checksum".
Proof. destruct (stepP p b); simpl; intros Hst; done || congruence. Qed.

(** In [RECORD_HEX] the parser stays in [RECORD_HEX] and yields hex events
    only. *)
Lemma step_hex_stays (p : VEDirectParser) (b : byte) :
  state p = RECORD_HEX →
  state (final (step p b)) = RECORD_HEX
  ∧ Forall is_hex_event (yielded (step p b)).
Proof.
  destruct (stepP p b); simpl; intros Hst; try congruence;
    split; try done; by repeat constructor.
Qed.

(** A hex event is yielded in [RECORD_HEX] only. *)
Lemma step_yields_hex (p : VEDirectParser) (b : byte) (e : Event) :
  e ∈ yielded (step p b) → is_hex_event e → state p = RECORD_HEX.
Proof.
  destruct (stepP p b); simpl; intros Hin He;
    try (by apply elem_of_nil in Hin);
    apply list_elem_of_singleton in Hin; by subst.
Qed.

(** The buffers keep their sizes. *)
Lemma step_allocated (p : VEDirectParser) (b : byte) :
  allocated p → allocated (final (step p b)).
Proof.
  unfold allocated.
  destruct (stepP p b); simpl; rewrite ?length_insert; done.
Qed.

End StepFacts.

(** ** Runs, byte by byte *)

Section RunFacts.
Import Parser FrameSpec Transitions.

Lemma receive_bytes_cons_ok (p : VEDirectParser) (b : byte) (rest : bytes) :
  raised (receive_bytes p (b :: rest)) = None →
  raised (step p b) = None
  ∧ raised (receive_bytes (final (step p b)) rest) = None
  ∧ yielded (receive_bytes p (b :: rest))
    = yielded (step p b) ++ yielded (receive_bytes (final (step p b)) rest)
  ∧ final (receive_bytes p (b :: rest))
    = final (receive_bytes (final (step p b)) rest).
Proof.
  simpl. unfold and_then.
  destruct (raised (step p b)) eqn:E; simpl; [by rewrite E|done].
Qed.

(** The events of a call: those of the first byte, then, unless it raised,
    those of the rest. *)
Lemma receive_bytes_cons_yielded (p : VEDirectParser) (b : byte) (rest : bytes) :
  yielded (receive_bytes p (b :: rest)) = yielded (step p b)
  ∨ yielded (receive_bytes p (b :: rest))
    = yielded (step p b) ++ yielded (receive_bytes (final (step p b)) rest).
Proof.
  simpl. unfold and_then. destruct (raised (step p b)); simpl; auto.
Qed.

Lemma receive_bytes_allocated (p : VEDirectParser) (input : bytes) :
  allocated p → allocated (final (receive_bytes p input)).
Proof.
  revert p. induction input as [|b rest IH]; intros p Hp; simpl; [done|].
  unfold and_then. destruct (raised (step p b)); simpl.
  - by apply step_allocated.
  - by apply IH, step_allocated.
Qed.

Lemma init_allocated : allocated init.
Proof. by repeat split. Qed.

(** Once in [RECORD_HEX], always in [RECORD_HEX], and hex events only. *)
Lemma receive_bytes_hex_stays (p : VEDirectParser) (input : bytes) :
  state p = RECORD_HEX →
  state (final (receive_bytes p input)) = RECORD_HEX
  ∧ Forall is_hex_event (yielded (receive_bytes p input)).
Proof.
  revert p. induction input as [|b rest IH]; intros p Hp; simpl; [done|].
  destruct (step_hex_stays p b Hp) as [Hs Hy].
  unfold and_then. destruct (raised (step p b)); simpl; [done|].
  destruct (IH _ Hs) as [Hs' Hy']. split; [done|].
  by apply Forall_app.
Qed.

Lemma byte_sum_app (a b : bytes) : byte_sum (a ++ b) = byte_sum a + byte_sum b.
Proof. induction a as [|x a IH]; simpl; lia. Qed.

Lemma eligible_bytes_snoc (p : VEDirectParser) (pre : bytes) (b : byte) :
  raised (receive_bytes p pre) = None →
  eligible_bytes p (pre ++ [b])
  = eligible_bytes p pre
    ++ (if hex_consumed (final (receive_bytes p pre)) b then [] else [b]).
Proof.
  revert p. induction pre as [|x pre IH]; intros p Hok.
  - simpl. by rewrite !app_nil_r.
  - apply receive_bytes_cons_ok in Hok as (_ & Hok & _ & Hf).
    rewrite Hf. simpl. rewrite IH by done. by rewrite app_assoc.
Qed.

(** Until a frame end is yielded, the running sum is the sum it started
    from plus the eligible bytes read. *)
Lemma checksum_accumulates (p : VEDirectParser) (input : bytes) :
  raised (receive_bytes p input) = None →
  (∀ v, FrameEndEvent v ∉ yielded (receive_bytes p input)) →
  checksum (final (receive_bytes p input))
  = checksum p + byte_sum (eligible_bytes p input).
Proof.
  revert p. induction input as [|b rest IH]; intros p Hok Hno.
  - simpl. lia.
  - apply receive_bytes_cons_ok in Hok as (_ & Hok & Hy & Hf).
    rewrite Hf, IH; [|done|].
    + rewrite step_checksum.
      * simpl. rewrite byte_sum_app. destruct (hex_consumed p b); simpl; lia.
      * intros v Hin. apply (Hno v). rewrite Hy. apply elem_of_app. by left.
    + intros v Hin. apply (Hno v). rewrite Hy. apply elem_of_app. by right.
Qed.

(** A byte consumed in the Hex state leaves the parser in [RECORD_HEX]. *)
Lemma hex_consumed_state (p : VEDirectParser) (b : byte) :
  hex_consumed p b = true → state (final (step p b)) = RECORD_HEX.
Proof.
  destruct (stepP p b); subst; simpl; try done; intros Hc.
  all: try (rewrite hex_consumed_checksum in Hc by done; done).
  all: erewrite hex_consumed_in in Hc by (eassumption || congruence); done.
Qed.

(** Where a frame end follows, no byte was consumed in the Hex state. *)
Lemma frame_end_all_eligible
    (p : VEDirectParser) (pre : bytes) (last : byte) (v : bool) :
  raised (receive_bytes p pre) = None →
  FrameEndEvent v ∈ yielded (step (final (receive_bytes p pre)) last) →
  eligible_bytes p (pre ++ [last]) = pre ++ [last].
Proof.
  revert p. induction pre as [|x pre IH]; intros p Hok Hend.
  - simpl in *. apply step_frame_end in Hend as (Hs & _).
    by rewrite hex_consumed_checksum.
  - apply receive_bytes_cons_ok in Hok as (_ & Hok & _ & Hf).
    rewrite Hf in Hend. simpl.
    destruct (hex_consumed p x) eqn:Hc.
    + apply hex_consumed_state in Hc.
      apply (receive_bytes_hex_stays _ pre) in Hc as [Hc _].
      apply step_frame_end in Hend as (Hs & _). congruence.
    + simpl. f_equal. by apply IH.
Qed.

End RunFacts.

(** ** C1: the checksum of a frame *)

Section Checksum.
Import Parser FrameSpec Transitions UnitTest.

(** Where a call on a fresh parser does end in a frame end, the flag is
    [true] exactly when the bytes summed on the way, the checksum byte among
    them, come to 0 modulo 256; the running sum is then 0 and the parser is
    idle.  (No byte of such a call is consumed in the Hex state, see
    [complete_frame_all_eligible].) *)
Lemma complete_frame_checksum (frame : bytes) (valid : bool) :
  complete_frame init frame valid →
  (valid = true ↔ byte_sum (eligible_bytes init frame) mod 256 = 0)
  ∧ yielded (receive_bytes init frame)
    = yielded (receive_bytes init (removelast frame)) ++ [FrameEndEvent valid]
  ∧ checksum (final (receive_bytes init frame)) = 0
  ∧ state (final (receive_bytes init frame)) = IDLE.
Proof.
  intros (pre & last & -> & Hok & Hno & Hend).
  pose proof (receive_bytes_prefix_ok _ _ _ Hok) as Hpre.
  rewrite removelast_last.
  rewrite receive_bytes_snoc by done. simpl.
  assert (FrameEndEvent valid
          ∈ yielded (step (final (receive_bytes init pre)) last)) as Hin
    by (rewrite Hend; by left).
  apply step_frame_end in Hin as (Hs & Hv & Hstep).
  rewrite Hstep. simpl. split_and!; try done.
  rewrite eligible_bytes_snoc, hex_consumed_checksum by done.
  rewrite byte_sum_app. simpl.
  rewrite checksum_accumulates in Hv by done. simpl in Hv.
  rewrite Hv, Z.add_0_r. apply bool_decide_eq_true.
Qed.

(** The flag of a complete frame, for a parser in any state. *)
Lemma complete_frame_flag (p : VEDirectParser) (frame : bytes) (valid : bool) :
  complete_frame p frame valid →
  valid = bool_decide
            ((checksum p + byte_sum (eligible_bytes p frame)) mod 256 = 0).
Proof.
  intros (pre & last & -> & Hok & Hno & Hend).
  pose proof (receive_bytes_prefix_ok _ _ _ Hok) as Hpre.
  assert (FrameEndEvent valid
          ∈ yielded (step (final (receive_bytes p pre)) last)) as Hin
    by (rewrite Hend; by left).
  apply step_frame_end in Hin as (Hs & Hv & _).
  rewrite eligible_bytes_snoc, hex_consumed_checksum by done.
  rewrite byte_sum_app. simpl.
  rewrite checksum_accumulates in Hv by done.
  rewrite Hv. apply bool_decide_ext. by rewrite Z.add_0_r, Z.add_assoc.
Qed.

(** In a complete frame every byte is eligible: the flag is the test of the
    sum of all its bytes. *)
Lemma complete_frame_all_eligible (p : VEDirectParser) (frame : bytes) (valid : bool) :
  complete_frame p frame valid → eligible_bytes p frame = frame.
Proof.
  intros (pre & last & -> & Hok & Hno & Hend).
  eapply frame_end_all_eligible.
  - by eapply receive_bytes_prefix_ok.
  - rewrite Hend. by left.
Qed.

Lemma MPPT_SAMPLE_complete : complete_frame init MPPT_SAMPLE true.
Proof.
  exists (removelast MPPT_SAMPLE), "r"%byte. split_and!.
  - reflexivity.
  - vm_compute. reflexivity.
  - intros v. vm_compute. intros Hin.
    repeat (apply elem_of_cons in Hin as [Hin|Hin]; [discriminate|]).
    by apply elem_of_nil in Hin.
  - vm_compute. reflexivity.
Qed.


End Checksum.

(** ** C9: where frame ends come from *)

Section FrameEnds.
Import Parser FrameSpec Transitions.

(** Every yielded event belongs to one byte of the input: the bytes before
    it were read without an exception and yielded the events before it. *)
Lemma yielded_event_position
    (p : VEDirectParser) (input : bytes) (evs1 evs2 : list Event) (e : Event) :
  yielded (receive_bytes p input) = evs1 ++ e :: evs2 →
  ∃ pre b rest,
    input = pre ++ b :: rest
    ∧ raised (receive_bytes p pre) = None
    ∧ yielded (receive_bytes p pre) = evs1
    ∧ yielded (step (final (receive_bytes p pre)) b) = [e].
Proof.
  revert p evs1. induction input as [|b rest IH]; intros p evs1 Hy.
  { simpl in Hy. by destruct evs1. }
  simpl in Hy. unfold and_then in Hy.
  destruct (raised (step p b)) as [ex|] eqn:Hr.
  - destruct (step_yields_at_most_one p b) as [H0|[e0 H0]];
      rewrite H0 in Hy; [by destruct evs1|].
    destruct evs1 as [|e1 evs1]; [|by destruct evs1].
    injection Hy as <- <-. by exists [], b, rest.
  - simpl in Hy.
    destruct (step_yields_at_most_one p b) as [H0|[e0 H0]]; rewrite H0 in Hy.
    + simpl in Hy. destruct (IH _ _ Hy) as (pre & b' & rest' & -> & Hok & Hpre & Hb).
      exists (b :: pre), b', rest'. simpl. unfold and_then. rewrite Hr. simpl.
      by rewrite H0.
    + destruct evs1 as [|e1 evs1].
      * injection Hy as <- _. by exists [], b, rest.
      * injection Hy as <- Hy.
        destruct (IH _ _ Hy) as (pre & b' & rest' & -> & Hok & Hpre & Hb).
        exists (b :: pre), b', rest'. simpl. unfold and_then. rewrite Hr. simpl.
        by rewrite H0, Hpre.
Qed.

(** No hex event comes before a frame end: a parser that yielded a hex
    event is in [RECORD_HEX] for good. *)
Lemma no_hex_event_before_frame_end
    (p : VEDirectParser) (pre : bytes) (e : Event) :
  raised (receive_bytes p pre) = None →
  state (final (receive_bytes p pre)) = CHECKSUM →
  e ∈ yielded (receive_bytes p pre) → ¬ is_hex_event e.
Proof.
  intros Hok Hs Hin Hhex.
  apply list_elem_of_split in Hin as (l1 & l2 & Hy).
  apply yielded_event_position in Hy as (pre1 & b & rest & -> & Hok1 & _ & Hb).
  assert (state (final (receive_bytes p pre1)) = RECORD_HEX) as Hs1.
  { eapply step_yields_hex; [|done]. rewrite Hb. by left. }
  rewrite receive_bytes_app in Hs. unfold and_then in Hs.
  rewrite Hok1 in Hs. simpl in Hs.
  apply (receive_bytes_hex_stays _ (b :: rest)) in Hs1 as [Hs1 _].
  simpl in Hs1. congruence.
Qed.

(** C9.  Whenever a fresh parser yields a frame end, the two bytes that led
    to it are a tab read in [RECORD_LABEL] while the label buffer, up to the
    index, held [Checksum], which took the parser to [CHECKSUM] without
    yielding anything, and then one byte read in [CHECKSUM], which yielded
    the frame end.  Every event yielded before it is a text event or an
    earlier frame end: since the previous frame end, text events only. *)
Theorem frame_end_follows_checksum_label
    (input : bytes) (evs1 evs2 : list Event) (v : bool) :
  yielded (receive_bytes init input) = evs1 ++ FrameEndEvent v :: evs2 →
  (∃ head c rest,
     input = head ++ x09 :: c :: rest
     ∧ raised (receive_bytes init head) = None
     ∧ yielded (receive_bytes init head) = evs1
     ∧ state (final (receive_bytes init head)) = RECORD_LABEL
     ∧ take (current_index (final (receive_bytes init head)))
            (label_buf (final (receive_bytes init head)))
       = bytes_lit "Checksum"
     ∧ receive_bytes init (head ++ [x09])
       = mkRun (final (receive_bytes init (head ++ [x09]))) evs1 None
     ∧ state (final (receive_bytes init (head ++ [x09]))) = CHECKSUM
     ∧ yielded (step (final (receive_bytes init (head ++ [x09]))) c)
       = [FrameEndEvent v])
  ∧ Forall (λ e, is_text_event e ∨ is_frame_end e) evs1.
Proof.
  intros Hy.
  apply yielded_event_position in Hy as (pre & c & rest & -> & Hok & Hpre & Hc).
  assert (state (final (receive_bytes init pre)) = CHECKSUM) as Hs.
  { eapply step_frame_end. rewrite Hc. by left. }
  split.
  - destruct pre as [|t head _] using rev_ind; [done|].
    pose proof (receive_bytes_prefix_ok _ _ _ Hok) as Hok'.
    pose proof (receive_bytes_snoc head t init Hok') as Hsn.
    rewrite Hsn in Hs, Hpre, Hok. simpl in Hs, Hpre, Hok.
    apply step_enters_checksum in Hs as Hent. destruct Hent as (-> & Hl & Hck).
    assert (yielded (step (final (receive_bytes init head)) x09) = []) as Hnil.
    { destruct (stepP (final (receive_bytes init head)) x09);
        simpl in *; done || congruence. }
    rewrite Hnil, app_nil_r in Hpre.
    exists head, c, rest. rewrite <- app_assoc. simpl. split_and!; try done.
    + rewrite Hsn. simpl. by rewrite Hnil, app_nil_r, Hpre, Hok.
    + by rewrite Hsn.
  - rewrite <- Hpre. apply Forall_forall. intros e Hin.
    pose proof (no_hex_event_before_frame_end _ _ _ Hok Hs Hin) as Hnh.
    destruct e; simpl in *; auto.
Qed.

Lemma frame_end_follows_checksum_label_witness :
  yielded (receive_bytes init UnitTest.MPPT_SAMPLE)
  = removelast UnitTest.MPPT_SAMPLE_FIELDS ++ FrameEndEvent true :: []
  ∧ ((∃ head c rest,
       UnitTest.MPPT_SAMPLE = head ++ x09 :: c :: rest
       ∧ raised (receive_bytes init head) = None
       ∧ yielded (receive_bytes init head) = removelast UnitTest.MPPT_SAMPLE_FIELDS
       ∧ state (final (receive_bytes init head)) = RECORD_LABEL
       ∧ take (current_index (final (receive_bytes init head)))
              (label_buf (final (receive_bytes init head)))
         = bytes_lit "Checksum"
       ∧ receive_bytes init (head ++ [x09])
         = mkRun (final (receive_bytes init (head ++ [x09])))
                 (removelast UnitTest.MPPT_SAMPLE_FIELDS) None
       ∧ state (final (receive_bytes init (head ++ [x09]))) = CHECKSUM
       ∧ yielded (step (final (receive_bytes init (head ++ [x09]))) c)
         = [FrameEndEvent true])
     ∧ Forall (λ e, is_text_event e ∨ is_frame_end e)
              (removelast UnitTest.MPPT_SAMPLE_FIELDS)).
Proof.
  assert (yielded (receive_bytes init UnitTest.MPPT_SAMPLE)
          = removelast UnitTest.MPPT_SAMPLE_FIELDS ++ FrameEndEvent true :: [])
    as H by (vm_compute; reflexivity).
  split; [exact H|].
  exact (frame_end_follows_checksum_label UnitTest.MPPT_SAMPLE _ [] true H).
Defined.

End FrameEnds.

(** ** C4, C5: hex records *)

Section HexRecords.
Import Parser FrameSpec Transitions.

Lemma take_S_insert (buf : bytes) (i : nat) (b : byte) :
  (i < length buf)%nat → take (S i) (<[i:=b]> buf) = take i buf ++ [b].
Proof.
  intros Hi. rewrite (take_S_r _ _ b).
  - by rewrite take_insert_ge.
  - by apply list_lookup_insert_eq.
Qed.

(** In [RECORD_HEX], bytes other than the colon and the newline go to the
    hex buffer one after the other, as long as there is room. *)
Lemma hex_capture (payload : bytes) (p : VEDirectParser) :
  state p = RECORD_HEX →
  ":"%byte ∉ payload → x0a ∉ payload →
  (current_index p + length payload ≤ length (hex_buf p))%nat →
  let r := receive_bytes p payload in
  raised r = None ∧ yielded r = []
  ∧ state (final r) = RECORD_HEX
  ∧ current_index (final r) = (current_index p + length payload)%nat
  ∧ take (current_index (final r)) (hex_buf (final r))
    = take (current_index p) (hex_buf p) ++ payload.
Proof.
  revert p. induction payload as [|b rest IH]; intros p Hs Hc Hn Hlen.
  { simpl. rewrite Nat.add_0_r, app_nil_r. done. }
  apply not_elem_of_cons in Hc as [Hbc Hc].
  apply not_elem_of_cons in Hn as [Hbn Hn].
  simpl in Hlen. simpl.
  destruct (stepP p b); try congruence; try lia.
  unfold and_then. simpl.
  edestruct (IH (set_current_index (S (current_index p))
                  (set_hex_buf (<[current_index p:=b]> (hex_buf p)) p)))
    as (Hr & Hy & Hst & Hci & Htk); try done.
  { simpl. rewrite length_insert. lia. }
  simpl in *. rewrite Hr, Hy, Hst, Htk, Hci.
  rewrite take_S_insert by done. rewrite <- app_assoc. simpl.
  split_and!; done || lia.
Qed.

(** C4.  Let a fresh parser have read some bytes and be in [RECORD_LABEL]
    or [RECORD_VALUE].  A colon then yields nothing and takes the parser to
    [RECORD_HEX] with index 0, all else unchanged; and if at most
    [MAX_HEX_RECORD_LEN] bytes other than colon and newline follow and then
    a newline, the bytes from the colon on yield exactly one event, the hex
    event of the bytes between the colon and the newline.  Whatever follows
    the colon, only hex events are yielded from it on: no text event and no
    frame end for the interrupted field. *)
Theorem colon_preempts_text_field (pre payload : bytes) :
  raised (receive_bytes init pre) = None →
  state (final (receive_bytes init pre)) = RECORD_LABEL
  ∨ state (final (receive_bytes init pre)) = RECORD_VALUE →
  (length payload ≤ MAX_HEX_RECORD_LEN)%nat →
  ":"%byte ∉ payload → x0a ∉ payload →
  let p := final (receive_bytes init pre) in
  step p ":"%byte = ret (set_state RECORD_HEX (set_current_index 0%nat p))
  ∧ yielded (receive_bytes p (":"%byte :: payload ++ [x0a])) = [HexEvent payload]
  ∧ raised (receive_bytes p (":"%byte :: payload ++ [x0a])) = None
  ∧ yielded (receive_bytes init (pre ++ ":"%byte :: payload ++ [x0a]))
    = yielded (receive_bytes init pre) ++ [HexEvent payload]
  ∧ (∀ rest e, e ∈ yielded (receive_bytes p (":"%byte :: rest)) →
       is_hex_event e).
Proof.
  intros Hok Hst Hlen Hc Hn p.
  assert (allocated p) as (_ & _ & Hhex)
    by apply receive_bytes_allocated, init_allocated.
  assert (final (receive_bytes init pre) = p) as Hp by done.
  rewrite Hp in Hst. clearbody p.
  assert (step p ":"%byte
          = ret (set_state RECORD_HEX (set_current_index 0%nat p))) as Hstep.
  { destruct (stepP p ":"%byte); try done; destruct Hst; congruence. }
  set (q := set_state RECORD_HEX (set_current_index 0%nat p)) in *.
  destruct (hex_capture payload q) as (Hr & Hy & Hs & Hci & Htk); try done.
  { simpl. by rewrite Hhex. }
  assert (receive_bytes p (":"%byte :: payload ++ [x0a])
          = mkRun (final (receive_bytes q payload)) [HexEvent payload] None)
    as Hrun.
  { simpl. rewrite Hstep, and_then_ret_l.
    rewrite receive_bytes_snoc by done. rewrite Hy. simpl.
    destruct (stepP (final (receive_bytes q payload)) x0a); try congruence.
    simpl. by rewrite Htk. }
  split_and!; try done.
  - by rewrite Hrun.
  - by rewrite Hrun.
  - rewrite receive_bytes_app. unfold and_then. rewrite Hok, Hp.
    by rewrite Hrun.
  - intros rest e. simpl. rewrite Hstep, and_then_ret_l.
    apply Forall_forall. by apply receive_bytes_hex_stays.
Qed.

Lemma colon_preempts_text_field_witness :
  state (final (receive_bytes init (bytes_lit "\nPI"))) = RECORD_LABEL
  ∧ step (final (receive_bytes init (bytes_lit "\nPI"))) ":"%byte
    = ret (set_state RECORD_HEX
            (set_current_index 0%nat
              (final (receive_bytes init (bytes_lit "\nPI")))))
  ∧ yielded (receive_bytes (final (receive_bytes init (bytes_lit "\nPI")))
               (":"%byte :: bytes_lit "7F0ED00" ++ [x0a]))
    = [HexEvent (bytes_lit "7F0ED00")]
  ∧ raised (receive_bytes (final (receive_bytes init (bytes_lit "\nPI")))
              (":"%byte :: bytes_lit "7F0ED00" ++ [x0a]))
    = None
  ∧ yielded (receive_bytes init
               (bytes_lit "\nPI" ++ ":"%byte :: bytes_lit "7F0ED00" ++ [x0a]))
    = yielded (receive_bytes init (bytes_lit "\nPI"))
      ++ [HexEvent (bytes_lit "7F0ED00")]
  ∧ (∀ rest e,
       e ∈ yielded (receive_bytes (final (receive_bytes init (bytes_lit "\nPI")))
                      (":"%byte :: rest)) →
       is_hex_event e).
Proof.
  split; [reflexivity|].
  apply (colon_preempts_text_field (bytes_lit "\nPI") (bytes_lit "7F0ED00")).
  - reflexivity.
  - left. reflexivity.
  - vm_compute. lia.
  - vm_compute. intros Hin.
    repeat (apply elem_of_cons in Hin as [Hin|Hin]; [discriminate|]).
    by apply elem_of_nil in Hin.
  - vm_compute. intros Hin.
    repeat (apply elem_of_cons in Hin as [Hin|Hin]; [discriminate|]).
    by apply elem_of_nil in Hin.
Defined.

(** In [RECORD_HEX] there is no way out: whatever is read next, the parser
    is still in [RECORD_HEX] and has yielded hex events only. *)
Lemma hex_state_is_absorbing (p : VEDirectParser) (input : bytes) :
  state p = RECORD_HEX →
  state (final (receive_bytes p input)) = RECORD_HEX
  ∧ ∀ e, e ∈ yielded (receive_bytes p input) → is_hex_event e.
Proof.
  intros Hs. destruct (receive_bytes_hex_stays p input Hs) as [H1 H2].
  split; [done|]. by apply Forall_forall.
Qed.

(** C5, on the code.  After the newline that ends the hex record [A], the
    byte [B] is stored in the hex buffer at index 1, behind the [A] of the
    record before, and the next newline yields a second hex event, [AB];
    the parser is in [RECORD_HEX] throughout, where an idle parser would
    have dropped [B] and taken the newline as the start of a label. *)
Theorem hex_newline_keeps_capturing :
  let r1 := receive_bytes init (bytes_lit ":A\n") in
  let r2 := receive_bytes (final r1) (bytes_lit "B\n") in
  yielded r1 = [HexEvent (bytes_lit "A")]
  ∧ state (final r1) = RECORD_HEX ∧ current_index (final r1) = 1%nat
  ∧ yielded r2 = [HexEvent (bytes_lit "AB")]
  ∧ state (final r2) = RECORD_HEX ∧ current_index (final r2) = 2%nat
  ∧ take 2 (hex_buf (final r2)) = bytes_lit "AB"
  ∧ yielded (receive_bytes (set_state IDLE (final r1)) (bytes_lit "B\n")) = []
  ∧ state (final (receive_bytes (set_state IDLE (final r1)) (bytes_lit "B\n")))
    = RECORD_LABEL.
Proof. vm_compute. done. Qed.

End HexRecords.

(** ** C10: bytes read while idle *)

Section IdleBytes.
Import Parser FrameSpec Transitions UnitTest.

(** Outside [CHECKSUM] the loop body does not look at the running sum. *)
Lemma step_shifted (k : Z) (p : VEDirectParser) (b : byte) :
  state p ≠ CHECKSUM →
  step (shifted k p) b
  = mkRun (shifted k (final (step p b))) (yielded (step p b)) (raised (step p b)).
Proof.
  intros Hs.
  destruct (stepP p b); destruct (stepP (shifted k p) b); simpl in *;
    try solve [ congruence | lia
              | match goal with H : _ ∨ _ |- _ => destruct H; congruence end ].
  all: simplify_eq.
  all: unfold ret, yield, raise, shifted, summed, frozen, after_text; simpl.
  all: try (f_equal; unfold set_checksum, set_state, set_current_index, set_label_len, set_label_buf, set_value_buf, set_hex_buf, set_value_len, set_attr_value_len; simpl; f_equal; lia).
Qed.

Lemma shifted_shifted (j k : Z) (p : VEDirectParser) :
  shifted k (shifted j p) = shifted (j + k) p.
Proof. unfold shifted, set_checksum. simpl. f_equal. lia. Qed.

Lemma step_in_checksum (p : VEDirectParser) (b : byte) :
  state p = CHECKSUM →
  step p b
  = yield (FrameEndEvent (bool_decide ((checksum p + ord b) mod 256 = 0)))
      (set_state IDLE (set_checksum 0 (summed p b))).
Proof. intros Hs. destruct (stepP p b); done || congruence. Qed.

(** Up to the frame end, a run from a parser with a larger running sum is
    the same run, with the larger sum. *)
Lemma receive_bytes_shifted (k : Z) (input : bytes) (p : VEDirectParser) :
  raised (receive_bytes p input) = None →
  (∀ v, FrameEndEvent v ∉ yielded (receive_bytes p input)) →
  receive_bytes (shifted k p) input
  = mkRun (shifted k (final (receive_bytes p input)))
          (yielded (receive_bytes p input)) None.
Proof.
  revert p. induction input as [|b rest IH]; intros p Hok Hno; [done|].
  apply receive_bytes_cons_ok in Hok as Hparts.
  destruct Hparts as (Hr & Hrest & Hy & Hf).
  assert (state p ≠ CHECKSUM) as Hs.
  { intros Hs. apply (Hno (bool_decide ((checksum p + ord b) mod 256 = 0))).
    rewrite Hy, (step_in_checksum _ _ Hs). simpl. by left. }
  rewrite Hy, Hf. simpl. rewrite step_shifted by done.
  unfold and_then. simpl. rewrite Hr, IH; [done|done|].
  intros v Hin. apply (Hno v). rewrite Hy. apply elem_of_app. by right.
Qed.

(** Bytes other than newline and colon leave an idle parser as it is and
    add up in its running sum. *)
Lemma receive_bytes_idle (garbage : bytes) (p : VEDirectParser) :
  state p = IDLE →
  Forall (λ g, g ≠ x0a ∧ g ≠ x0d ∧ g ≠ ":"%byte) garbage →
  receive_bytes p garbage = ret (shifted (byte_sum garbage) p).
Proof.
  revert p. induction garbage as [|g rest IH]; intros p Hs Hg.
  { simpl. unfold shifted, set_checksum. rewrite Z.add_0_r. by destruct p. }
  apply Forall_cons in Hg as [(Hn & _ & Hc) Hg]. simpl.
  destruct (stepP p g); try congruence.
  rewrite and_then_ret_l, IH by done.
  change (summed p g) with (shifted (ord g) p). by rewrite shifted_shifted.
Qed.

(** C10.  A byte other than newline, carriage return and colon, read by an
    idle parser, yields nothing and changes nothing but the running sum,
    which grows by the byte.  So when such bytes come ahead of a complete
    frame, the frame yields the events it yields on its own, except that
    the flag of the frame end is the test of the sum of the bytes of the
    frame plus those bytes. *)
Theorem idle_bytes_count_in_checksum
    (p : VEDirectParser) (b : byte) (garbage frame : bytes) (valid : bool) :
  state p = IDLE →
  b ≠ x0a → b ≠ x0d → b ≠ ":"%byte →
  Forall (λ g, g ≠ x0a ∧ g ≠ x0d ∧ g ≠ ":"%byte) garbage →
  complete_frame init frame valid →
  step p b = mkRun (set_checksum (checksum p + ord b) p) [] None
  ∧ valid = bool_decide (byte_sum frame mod 256 = 0)
  ∧ raised (receive_bytes init (garbage ++ frame)) = None
  ∧ yielded (receive_bytes init (garbage ++ frame))
    = yielded (receive_bytes init (removelast frame))
      ++ [FrameEndEvent
            (bool_decide ((byte_sum garbage + byte_sum frame) mod 256 = 0))].
Proof.
  intros Hs Hn Hr Hc Hg Hframe. split.
  { destruct (stepP p b); done || congruence. }
  pose proof (complete_frame_all_eligible _ _ _ Hframe) as Hall.
  pose proof (complete_frame_flag _ _ _ Hframe) as Hv.
  rewrite Hall in Hv. simpl in Hv.
  destruct Hframe as (pre & last & -> & Hok & Hno & Hend).
  pose proof (receive_bytes_prefix_ok _ _ _ Hok) as Hpre.
  assert (state (final (receive_bytes init pre)) = CHECKSUM) as Hck.
  { eapply step_frame_end. rewrite Hend. by left. }
  rewrite eligible_bytes_snoc, hex_consumed_checksum in Hall by done.
  apply app_inv_tail in Hall.
  split; [done|].
  rewrite removelast_last, receive_bytes_app.
  rewrite receive_bytes_idle, and_then_ret_l by done.
  rewrite receive_bytes_snoc;
    rewrite (receive_bytes_shifted _ _ _ Hpre Hno); simpl; [|done].
  rewrite step_in_checksum by done. simpl. split; [done|].
  rewrite (checksum_accumulates _ _ Hpre Hno), Hall, byte_sum_app. simpl.
  do 3 f_equal. apply bool_decide_ext. 
  replace (0 + byte_sum pre + byte_sum garbage + ord last)
    with (byte_sum garbage + (byte_sum pre + (ord last + 0))) by lia.
  done.
Qed.

Lemma idle_bytes_count_in_checksum_witness :
  step init "x"%byte = mkRun (set_checksum (checksum init + ord "x"%byte) init) [] None
  ∧ true = bool_decide (byte_sum MPPT_SAMPLE mod 256 = 0)
  ∧ raised (receive_bytes init (bytes_lit "xy" ++ MPPT_SAMPLE)) = None
  ∧ yielded (receive_bytes init (bytes_lit "xy" ++ MPPT_SAMPLE))
    = yielded (receive_bytes init (removelast MPPT_SAMPLE))
      ++ [FrameEndEvent
            (bool_decide ((byte_sum (bytes_lit "xy") + byte_sum MPPT_SAMPLE)
                          mod 256 = 0))].
Proof.
  apply (idle_bytes_count_in_checksum init "x"%byte (bytes_lit "xy")
           MPPT_SAMPLE true).
  - reflexivity.
  - discriminate.
  - discriminate.
  - discriminate.
  - vm_compute. repeat constructor; discriminate.
  - exists (removelast MPPT_SAMPLE), "r"%byte. split_and!.
    + reflexivity.
    + vm_compute. reflexivity.
    + intros v. vm_compute. intros Hin.
      repeat (apply elem_of_cons in Hin as [Hin|Hin]; [discriminate|]).
      by apply elem_of_nil in Hin.
    + vm_compute. reflexivity.
Defined.

(** The sample frame is valid on its own and not after the two bytes [xy]. *)
Lemma garbage_invalidates_sample :
  yielded (receive_bytes init (bytes_lit "xy" ++ MPPT_SAMPLE))
  = removelast MPPT_SAMPLE_FIELDS ++ [FrameEndEvent false].
Proof. vm_compute. reflexivity. Qed.

End IdleBytes.

(** ** C3: exceptions *)

Section Exceptions.
Import Parser FrameSpec Transitions UnitTest.

(** With its buffers allocated, the loop body raises [IndexError] exactly
    when the byte has to be stored in a full buffer, [UnicodeDecodeError]
    exactly when the text to be yielded is not UTF-8, and nothing otherwise;
    when it raises it yields nothing and leaves the buffers, the index,
    the label length and the state as they were. *)
Lemma step_raises_exactly_when (p : VEDirectParser) (b : byte) :
  allocated p →
  (raised (step p b) = Some IndexError ↔ overflows p b)
  ∧ (raised (step p b) = Some UnicodeDecodeError ↔ undecodable p b)
  ∧ (raised (step p b) = None ↔ ¬ overflows p b ∧ ¬ undecodable p b)
  ∧ raised (step p b) ≠ Some OverflowError
  ∧ (raised (step p b) ≠ None →
     yielded (step p b) = []
     ∧ label_buf (final (step p b)) = label_buf p
     ∧ value_buf (final (step p b)) = value_buf p
     ∧ hex_buf (final (step p b)) = hex_buf p
     ∧ current_index (final (step p b)) = current_index p
     ∧ label_len (final (step p b)) = label_len p
     ∧ state (final (step p b)) = state p).
Proof.
  intros (Hl & Hv & Hh). unfold overflows, undecodable.
  destruct (stepP p b); simpl; rewrite ?Hl, ?Hv, ?Hh in *;
    unfold MAX_FIELD_LABEL_LEN, MAX_FIELD_VALUE_LEN, MAX_HEX_RECORD_LEN in *.
  all: repeat match goal with
         | |- _ ∧ _ => split
         | |- _ ↔ _ => split
         | |- ¬ _ => intros ?
         | |- _ → _ => intros ?
         | H : _ ∧ _ |- _ => destruct H
         | H : _ ∨ _ |- _ => destruct H
         end; try done; try congruence; try lia.
  all: try pick_branch.
  all: exfalso; match goal with H : ¬ _ |- _ => apply H; pick_branch end.
Qed.

(** A call that raises does so on one byte of its input, the first that
    makes the loop body raise. *)
Lemma raised_position (p : VEDirectParser) (input : bytes) (e : Exn) :
  raised (receive_bytes p input) = Some e →
  ∃ pre b rest,
    input = pre ++ b :: rest
    ∧ raised (receive_bytes p pre) = None
    ∧ raised (step (final (receive_bytes p pre)) b) = Some e
    ∧ final (receive_bytes p input) = final (step (final (receive_bytes p pre)) b)
    ∧ yielded (receive_bytes p input)
      = yielded (receive_bytes p pre)
        ++ yielded (step (final (receive_bytes p pre)) b).
Proof.
  revert p. induction input as [|b rest IH]; intros p Hr; [done|].
  simpl in Hr. unfold and_then in Hr.
  destruct (raised (step p b)) as [ex|] eqn:Hs.
  - exists [], b, rest. simpl. unfold and_then. rewrite Hs.
    split_and!; try done. congruence.
  - simpl in Hr. destruct (IH _ Hr) as (pre & b' & rest' & -> & Hok & Hb & Hf & Hy).
    exists (b :: pre), b', rest'. simpl. unfold and_then. rewrite Hs. simpl.
    split_and!; try done. by rewrite Hy, app_assoc.
Qed.

(** C3, as amended.  A call of [receive_bytes] on a fresh parser raises no
    exception exactly on the inputs none of whose bytes has to be stored in
    a buffer whose index has reached the size of the buffer (9 for a label,
    33 for a value, 100 for a hex record) and none of whose values ends with
    a label or a value that is not UTF-8.  On any other input it raises on
    the first such byte, [IndexError] for a full buffer and
    [UnicodeDecodeError] for undecodable text; the events of the bytes
    before have been yielded, the byte itself yields nothing, and the
    buffers, the index and the state are left as they were before it. *)
Theorem receive_bytes_raises_exactly_when (input : bytes) :
  (raised (receive_bytes init input) = None
   ↔ ∀ pre b rest, input = pre ++ b :: rest →
       ¬ overflows (final (receive_bytes init pre)) b
       ∧ ¬ undecodable (final (receive_bytes init pre)) b)
  ∧ (∀ e, raised (receive_bytes init input) = Some e →
       ∃ pre b rest,
         input = pre ++ b :: rest
         ∧ raised (receive_bytes init pre) = None
         ∧ (e = IndexError ∧ overflows (final (receive_bytes init pre)) b
            ∨ e = UnicodeDecodeError
              ∧ undecodable (final (receive_bytes init pre)) b)
         ∧ yielded (receive_bytes init input) = yielded (receive_bytes init pre)
         ∧ label_buf (final (receive_bytes init input))
           = label_buf (final (receive_bytes init pre))
         ∧ value_buf (final (receive_bytes init input))
           = value_buf (final (receive_bytes init pre))
         ∧ hex_buf (final (receive_bytes init input))
           = hex_buf (final (receive_bytes init pre))
         ∧ current_index (final (receive_bytes init input))
           = current_index (final (receive_bytes init pre))
         ∧ state (final (receive_bytes init input))
           = state (final (receive_bytes init pre))).
Proof.
  split; [split|].
  - intros Hok pre b rest ->.
    replace (pre ++ b :: rest) with ((pre ++ [b]) ++ rest) in Hok
      by (by rewrite <- app_assoc).
    apply receive_bytes_prefix_ok in Hok.
    pose proof (receive_bytes_prefix_ok _ _ _ Hok) as Hpre.
    rewrite receive_bytes_snoc in Hok by done. simpl in Hok.
    by apply step_raises_exactly_when;
      [apply receive_bytes_allocated, init_allocated|].
  - induction input as [|b pre IH] using rev_ind; intros Hall; [done|].
    assert (raised (receive_bytes init pre) = None) as Hpre.
    { apply IH. intros pre' b' rest' ->.
      apply (Hall pre' b' (rest' ++ [b])). by rewrite <- app_assoc. }
    rewrite receive_bytes_snoc by done. simpl.
    apply step_raises_exactly_when;
      [apply receive_bytes_allocated, init_allocated|].
    apply (Hall pre b []). done.
  - intros e Hr.
    apply raised_position in Hr as (pre & b & rest & -> & Hok & Hb & Hf & Hy).
    destruct (step_raises_exactly_when (final (receive_bytes init pre)) b)
      as (Hi & Hu & _ & Hno & Hsame);
      [apply receive_bytes_allocated, init_allocated|].
    destruct Hsame as (Hnil & ? & ? & ? & ? & ? & ?); [by rewrite Hb|].
    exists pre, b, rest. rewrite Hf, Hy, Hnil, app_nil_r.
    split_and!; try done.
    destruct e; [left|right|congruence]; split; try done.
    + by apply Hi.
    + by apply Hu.
Qed.

(** C3, as stated, fails: the tenth byte of a label, the thirty-fourth byte
    of a value and the hundred-and-first byte of a hex record each raise
    [IndexError]. *)
Lemma long_field_raises_IndexError :
  raised (receive_bytes init (bytes_lit "\nABCDEFGHIJ")) = Some IndexError
  ∧ raised (receive_bytes init
              (bytes_lit "\nV\t" ++ replicate 34 "1"%byte)) = Some IndexError
  ∧ raised (receive_bytes init
              (":"%byte :: replicate 101 "0"%byte)) = Some IndexError
  ∧ raised (receive_bytes init (bytes_lit "\nABCDEFGHI")) = None
  ∧ raised (receive_bytes init
              (bytes_lit "\nV\t" ++ replicate 33 "1"%byte)) = None
  ∧ raised (receive_bytes init
              (":"%byte :: replicate 100 "0"%byte)) = None.
Proof. vm_compute. done. Qed.

(** The index is not reset on the way through [CHECKSUM]: after the sample
    frame it is 8, the length of [Checksum], and the label of the frame
    that follows is stored from there, so that its second byte raises
    [IndexError]. *)
Lemma second_frame_label_starts_at_8 :
  current_index (final (receive_bytes init MPPT_SAMPLE)) = 8%nat
  ∧ state (final (receive_bytes init MPPT_SAMPLE)) = IDLE
  ∧ raised (receive_bytes init (MPPT_SAMPLE ++ bytes_lit "\r\nP")) = None
  ∧ raised (receive_bytes init (MPPT_SAMPLE ++ bytes_lit "\r\nPI"))
    = Some IndexError
  ∧ yielded (receive_bytes init (MPPT_SAMPLE ++ MPPT_SAMPLE))
    = MPPT_SAMPLE_FIELDS.
Proof. vm_compute. done. Qed.

(** A value that is not UTF-8 raises [UnicodeDecodeError] at its newline. *)
Lemma undecodable_value_raises :
  receive_bytes init (bytes_lit "\nV\t" ++ [xff; x0a])
  = mkRun (final (receive_bytes init (bytes_lit "\nV\t" ++ [xff; x0a])))
          [] (Some UnicodeDecodeError).
Proof. vm_compute. reflexivity. Qed.

End Exceptions.

(** * Further properties *)

(** ** Serialization of requests *)

Section Serialization.
Import Parser HexProtocol HexFields WireFormat.

Lemma ord_bounds (b : byte) : 0 <= ord b < 256.
Proof. unfold ord. pose proof (Byte.to_N_bounded b). lia. Qed.



















End Serialization.

(** ** Text fields and frames *)

Section TextFrames.
Import Parser FrameSpec Transitions WireFormat.

Lemma receive_bytes_cons (p : VEDirectParser) (b : byte) (rest : bytes) :
  receive_bytes p (b :: rest)
  = (step p b >>> fun p' => receive_bytes p' rest).
Proof. reflexivity. Qed.

(** The transitions, one by one, as equations. *)
Lemma step_idle_other (p : VEDirectParser) (b : byte) :
  state p = IDLE → b ≠ x0a → b ≠ ":"%byte → step p b = ret (summed p b).
Proof. intros. destruct (stepP p b); done || congruence. Qed.

Lemma step_idle_newline (p : VEDirectParser) :
  state p = IDLE → step p x0a = ret (set_state RECORD_LABEL (summed p x0a)).
Proof. intros. destruct (stepP p x0a); done || congruence. Qed.

Lemma step_label_store (p : VEDirectParser) (b : byte) :
  state p = RECORD_LABEL → b ≠ x09 → b ≠ ":"%byte →
  (current_index p < length (label_buf p))%nat →
  step p b = ret (set_current_index (S (current_index p))
                   (set_label_buf (<[current_index p := b]> (label_buf p))
                     (summed p b))).
Proof. intros. destruct (stepP p b); done || congruence || lia. Qed.

Lemma step_label_overflow (p : VEDirectParser) (b : byte) :
  state p = RECORD_LABEL → b ≠ x09 → b ≠ ":"%byte →
  (length (label_buf p) ≤ current_index p)%nat →
  step p b = raise IndexError (summed p b).
Proof. intros. destruct (stepP p b); done || congruence || lia. Qed.

Lemma step_label_tab (p : VEDirectParser) :
  state p = RECORD_LABEL →
  take (current_index p) (label_buf p) ≠ bytes_lit "Checksum" →
  step p x09
  = ret (set_state RECORD_VALUE
          (set_current_index 0%nat
            (set_label_len (current_index p) (summed p x09)))).
Proof. intros. destruct (stepP p x09); done || congruence. Qed.

Lemma step_label_checksum (p : VEDirectParser) :
  state p = RECORD_LABEL →
  take (current_index p) (label_buf p) = bytes_lit "Checksum" →
  step p x09 = ret (set_state CHECKSUM (summed p x09)).
Proof. intros. destruct (stepP p x09); done || congruence. Qed.

Lemma step_value_cr (p : VEDirectParser) :
  state p = RECORD_VALUE → step p x0d = ret (summed p x0d).
Proof. intros. destruct (stepP p x0d); done || congruence. Qed.

Lemma step_value_store (p : VEDirectParser) (b : byte) :
  state p = RECORD_VALUE → b ≠ x0d → b ≠ x0a → b ≠ ":"%byte →
  (current_index p < length (value_buf p))%nat →
  step p b = ret (set_current_index (S (current_index p))
                   (set_value_buf (<[current_index p := b]> (value_buf p))
                     (summed p b))).
Proof. intros. destruct (stepP p b); done || congruence || lia. Qed.

Lemma step_value_newline (p : VEDirectParser) (label value : str) :
  state p = RECORD_VALUE →
  utf8_decode (take (label_len p) (label_buf p)) = Some label →
  utf8_decode (take (current_index p) (value_buf p)) = Some value →
  step p x0a = yield (TextEvent label value) (after_text p x0a).
Proof.
  intros Hs Hl Hv. destruct (stepP p x0a) as
    [| | | | | | | |l v ? ? Hl' Hv'|? ? [Hn|Hn]| | | | | |]; congruence.
Qed.

(** Two parsers with the same attributes are the same parser. *)
Lemma parser_ext (p q : VEDirectParser) :
  label_buf p = label_buf q → value_buf p = value_buf q →
  hex_buf p = hex_buf q → label_len p = label_len q →
  value_len p = value_len q → current_index p = current_index q →
  checksum p = checksum q → state p = state q →
  attr_value_len p = attr_value_len q → p = q.
Proof. destruct p, q. simpl. by intros -> -> -> -> -> -> -> -> ->. Qed.

Lemma byte_sum_cons (b : byte) (bs : bytes) :
  byte_sum (b :: bs) = ord b + byte_sum bs.
Proof. reflexivity. Qed.

Lemma written_nil (buf : bytes) (i : nat) : written buf i [] = buf.
Proof. unfold written. simpl. by rewrite Nat.add_0_r, take_drop. Qed.

Lemma written_insert (buf : bytes) (i : nat) (b : byte) (rest : bytes) :
  (i < length buf)%nat →
  written (<[i:=b]> buf) (S i) rest = written buf i (b :: rest).
Proof.
  intros Hi. unfold written. rewrite take_S_insert by done.
  rewrite drop_insert_lt by lia. rewrite <- app_assoc. simpl.
  repeat f_equal. lia.
Qed.

Lemma length_written (buf : bytes) (i : nat) (bs : bytes) :
  (i + length bs ≤ length buf)%nat → length (written buf i bs) = length buf.
Proof.
  intros H. unfold written.
  rewrite !length_app, length_take, length_drop. lia.
Qed.

Lemma take_written (buf : bytes) (i : nat) (bs : bytes) :
  (i ≤ length buf)%nat →
  take (i + length bs) (written buf i bs) = take i buf ++ bs.
Proof.
  intros H. unfold written. rewrite app_assoc.
  rewrite take_app_length'; [done|].
  rewrite length_app, length_take. lia.
Qed.

Lemma take_written_0 (buf : bytes) (bs : bytes) :
  take (length bs) (written buf 0 bs) = bs.
Proof. unfold written. rewrite take_0. simpl. apply take_app_length. Qed.

(** In [RECORD_LABEL], bytes other than tab and colon go to the label
    buffer. *)
Lemma label_capture (label : bytes) (p : VEDirectParser) :
  state p = RECORD_LABEL →
  x09 ∉ label → ":"%byte ∉ label →
  (current_index p + length label ≤ length (label_buf p))%nat →
  receive_bytes p label
  = ret (set_current_index (current_index p + length label)
          (set_label_buf (written (label_buf p) (current_index p) label)
            (set_checksum (checksum p + byte_sum label) p))).
Proof.
  revert p. induction label as [|b rest IH]; intros p Hs Ht Hc Hlen.
  { simpl. rewrite written_nil, Nat.add_0_r, Z.add_0_r. by destruct p. }
  apply not_elem_of_cons in Ht as [Hbt Ht].
  apply not_elem_of_cons in Hc as [Hbc Hc].
  simpl in Hlen. cbn [receive_bytes].
  rewrite step_label_store by (done || lia). rewrite and_then_ret_l.
  rewrite IH; [|done|done|done|simpl; rewrite length_insert; lia].
  simpl. rewrite written_insert by lia.
  unfold ret, set_current_index, set_label_buf, set_checksum; simpl.
  do 2 f_equal; lia.
Qed.

(** In [RECORD_VALUE], bytes other than newline and colon go to the value
    buffer, but for the carriage returns, which are dropped. *)
Lemma value_capture (value : bytes) (p : VEDirectParser) :
  state p = RECORD_VALUE →
  x0a ∉ value → ":"%byte ∉ value →
  (current_index p + length (stored_value value) ≤ length (value_buf p))%nat →
  receive_bytes p value
  = ret (set_current_index (current_index p + length (stored_value value))
          (set_value_buf
            (written (value_buf p) (current_index p) (stored_value value))
            (set_checksum (checksum p + byte_sum value) p))).
Proof.
  revert p. induction value as [|b rest IH]; intros p Hs Hn Hc Hlen.
  { simpl. rewrite written_nil, Nat.add_0_r, Z.add_0_r. by destruct p. }
  apply not_elem_of_cons in Hn as [Hbn Hn].
  apply not_elem_of_cons in Hc as [Hbc Hc].
  cbn [receive_bytes]. unfold stored_value in *.
  destruct (decide (b = x0d)) as [->|Hbr].
  - rewrite filter_cons_False in * by (intros H; by apply H).
    rewrite step_value_cr by done. rewrite and_then_ret_l.
    rewrite IH by done. simpl.
    unfold ret, set_current_index, set_value_buf, set_checksum; simpl.
    do 2 f_equal; lia.
  - rewrite filter_cons_True in * by done. simpl in Hlen.
    rewrite step_value_store by (done || lia). rewrite and_then_ret_l.
    rewrite IH; [|done|done|done|simpl; rewrite length_insert; lia].
    simpl. rewrite written_insert by lia.
    unfold ret, set_current_index, set_value_buf, set_checksum; simpl.
    do 2 f_equal; lia.
Qed.

#[local] Arguments stored_value : simpl never.
#[local] Arguments written : simpl never.

(** A well-formed field read by a parser that is at the start of a label:
    the run, written out. *)
Lemma field_run (p : VEDirectParser) (label value : bytes) :
  state p = RECORD_LABEL → current_index p = 0%nat → allocated p →
  well_formed_field (label, value) →
  ∃ l v,
    utf8_decode label = Some l ∧ utf8_decode (stored_value value) = Some v
    ∧ receive_bytes p (field_bytes (label, value))
      = yield (TextEvent l v)
          (mkParser (written (label_buf p) 0 label)
                    (written (value_buf p) 0 (stored_value value))
                    (hex_buf p) 0 (length (stored_value value)) 0
                    (checksum p + byte_sum (field_bytes (label, value)))
                    RECORD_LABEL (Some 0%nat)).
Proof.
  intros Hs Hci (Hlb & Hvb & Hhb) (Hll & Ht & Hc & Hck & Hvn & Hvc & Hvl & Hdec).
  unfold MAX_FIELD_LABEL_LEN, MAX_FIELD_VALUE_LEN in *.
  cbn [fst snd] in *. unfold decoded_field in Hdec. cbn [fst snd] in Hdec.
  destruct (utf8_decode label) as [l|] eqn:El; [|by destruct Hdec].
  destruct (utf8_decode (stored_value value)) as [v|] eqn:Ev;
    [|by destruct Hdec].
  exists l, v. split; [done|]. split; [done|].
  unfold field_bytes. cbn [fst snd].
  rewrite receive_bytes_app, label_capture by (done || lia).
  rewrite and_then_ret_l, Hci. cbn [app receive_bytes].
  rewrite step_label_tab; [|done|].
  2:{ simpl. by rewrite take_written_0. }
  rewrite and_then_ret_l, receive_bytes_app.
  rewrite value_capture; [|done|done|done|simpl; rewrite Hvb; exact Hvl].
  rewrite and_then_ret_l. cbn [receive_bytes].
  rewrite step_value_cr by done. rewrite and_then_ret_l.
  erewrite step_value_newline; [|done|..].
  2:{ simpl. by rewrite take_written_0. }
  2:{ simpl. by rewrite take_written_0. }
  rewrite and_then_ret_r. unfold yield. f_equal.
  apply parser_ext; simpl; try reflexivity.
  rewrite !byte_sum_app. simpl. rewrite byte_sum_app. simpl. lia.
Qed.

(** A well-formed field, read by a parser that is at the start of a label
    with its buffers allocated, yields exactly its text event (the value
    without its carriage returns), raises nothing, adds all its bytes to
    the running sum and leaves the parser at the start of the next label. *)
Theorem field_yields_text_event (p : VEDirectParser) (f : bytes * bytes) :
  state p = RECORD_LABEL → current_index p = 0%nat → allocated p →
  well_formed_field f →
  raised (receive_bytes p (field_bytes f)) = None
  ∧ Some <$> yielded (receive_bytes p (field_bytes f)) = [decoded_field f]
  ∧ state (final (receive_bytes p (field_bytes f))) = RECORD_LABEL
  ∧ current_index (final (receive_bytes p (field_bytes f))) = 0%nat
  ∧ allocated (final (receive_bytes p (field_bytes f)))
  ∧ checksum (final (receive_bytes p (field_bytes f)))
    = checksum p + byte_sum (field_bytes f).
Proof.
  destruct f as [label value]. intros Hs Hci Hall Hwf.
  destruct (field_run p label value Hs Hci Hall Hwf) as (l & v & El & Ev & ->).
  destruct Hall as (Hlb & Hvb & Hhb).
  destruct Hwf as (Hll & _ & _ & _ & _ & _ & Hvl & _).
  cbn [fst snd] in *. unfold decoded_field. cbn [fst snd]. rewrite El, Ev.
  split_and!; try reflexivity.
  unfold allocated. simpl. rewrite !length_written by (simpl; lia). done.
Qed.

(** Well-formed fields, one after the other. *)
Lemma fields_run (fields : list (bytes * bytes)) (p : VEDirectParser) :
  state p = RECORD_LABEL → current_index p = 0%nat → allocated p →
  Forall well_formed_field fields →
  ∃ evs p',
    receive_bytes p (concat (map field_bytes fields)) = mkRun p' evs None
    ∧ Some <$> evs = decoded_field <$> fields
    ∧ state p' = RECORD_LABEL ∧ current_index p' = 0%nat ∧ allocated p'
    ∧ checksum p' = checksum p + byte_sum (concat (map field_bytes fields)).
Proof.
  revert p. induction fields as [|[label value] fields IH];
    intros p Hs Hci Hall Hwf.
  { exists [], p. simpl. split_and!; try done. lia. }
  apply Forall_cons in Hwf as [Hf Hwf].
  destruct (field_run p label value Hs Hci Hall Hf) as (l & v & El & Ev & Hrun).
  destruct Hall as (Hlb & Hvb & Hhb).
  pose proof Hf as (Hll & _ & _ & _ & _ & _ & Hvl & _). cbn [fst snd] in Hll, Hvl.
  edestruct (IH (final (receive_bytes p (field_bytes (label, value)))))
    as (evs & p' & Hrest & Hevs & Hs' & Hci' & Hall' & Hsum);
    [by rewrite Hrun..| |done|].
  { rewrite Hrun. unfold allocated. simpl.
    rewrite !length_written by (simpl; lia). done. }
  exists (TextEvent l v :: evs), p'.
  cbn [map concat]. rewrite receive_bytes_app. unfold and_then.
  rewrite Hrest. rewrite Hrun. cbn [raised yield yielded final app].
  split_and!; try done.
  - cbn [fmap list_fmap]. rewrite <- Hevs. unfold decoded_field.
    cbn [fst snd]. by rewrite El, Ev.
  - rewrite Hsum, Hrun, byte_sum_app. simpl. lia.
Qed.

Lemma checksum_label_facts :
  (x09 ∉ bytes_lit "Checksum") ∧ (":"%byte ∉ bytes_lit "Checksum")
  ∧ length (bytes_lit "Checksum") = 8%nat
  ∧ bytes_lit "Checksum\t" = bytes_lit "Checksum" ++ [x09].
Proof. apply (bool_decide_unpack _). vm_compute. exact I. Qed.

(** The body of a frame of well-formed fields: from an idle parser with
    index 0 to [CHECKSUM]. *)
Lemma frame_body_run (fields : list (bytes * bytes)) (p : VEDirectParser) :
  state p = IDLE → current_index p = 0%nat → allocated p →
  Forall well_formed_field fields →
  ∃ evs p',
    receive_bytes p (frame_body fields) = mkRun p' evs None
    ∧ Some <$> evs = decoded_field <$> fields
    ∧ state p' = CHECKSUM ∧ current_index p' = 8%nat ∧ allocated p'
    ∧ checksum p' = checksum p + byte_sum (frame_body fields).
Proof.
  intros Hs Hci Hall Hwf. unfold frame_body.
  destruct checksum_label_facts as (Ht & Hc & Hlen & ->).
  cbn [app receive_bytes].
  rewrite step_idle_other by done. rewrite and_then_ret_l.
  rewrite step_idle_newline by done. rewrite and_then_ret_l.
  edestruct (fields_run fields
               (set_state RECORD_LABEL (summed (summed p x0d) x0a)))
    as (evs & p1 & Hrun & Hevs & Hs1 & Hci1 & Hall1 & Hsum1); [done..|].
  pose proof Hall1 as (Hlb1 & _ & _). unfold MAX_FIELD_LABEL_LEN in Hlb1.
  rewrite receive_bytes_app. unfold and_then. rewrite Hrun.
  cbn [raised final yielded].
  rewrite receive_bytes_app, label_capture by (done || lia).
  rewrite and_then_ret_l. cbn [receive_bytes].
  rewrite step_label_checksum; [|done|].
  2:{ cbn [current_index label_buf set_current_index set_label_buf
           set_checksum].
      rewrite Hci1, Nat.add_0_l. apply take_written_0. }
  rewrite and_then_ret_l. cbn [ret raised final yielded].
  exists evs, (set_state CHECKSUM
     (summed
        (set_current_index (current_index p1 + length (bytes_lit "Checksum"))
           (set_label_buf
              (written (label_buf p1) (current_index p1) (bytes_lit "Checksum"))
              (set_checksum (checksum p1 + byte_sum (bytes_lit "Checksum")) p1)))
        x09)).
  rewrite app_nil_r. split_and!; try done.
  - simpl. rewrite Hci1. done.
  - destruct Hall1 as (? & ? & ?). unfold allocated. simpl.
    rewrite length_written by (rewrite ?Hci1, ?Hlen, ?Hlb1; simpl; lia). done.
  - cbn [checksum set_state summed set_checksum set_current_index set_label_buf].
    rewrite Hsum1. cbn [checksum set_state summed set_checksum].
    rewrite !byte_sum_cons, !byte_sum_app, byte_sum_cons.
    change (byte_sum []) with 0. lia.
Qed.

Lemma decoded_field_is_text (f : bytes * bytes) (e : Event) :
  decoded_field f = Some e → is_text_event e.
Proof.
  unfold decoded_field.
  destruct (utf8_decode (fst f)); [|done].
  destruct (utf8_decode (stored_value (snd f))); [|done].
  by intros [= <-].
Qed.

(** A frame of well-formed fields, read by a fresh parser, yields the text
    events of its fields in order and then one frame end, whose flag tells
    whether all the bytes of the frame sum to 0 modulo 256; whatever the
    checksum byte is (a colon too), it ends the frame.  The call raises
    nothing and leaves the parser idle with a zero sum; the frame is a
    complete frame. *)
Theorem well_formed_frame_decodes (fields : list (bytes * bytes)) (c : byte) :
  Forall well_formed_field fields →
  raised (receive_bytes init (frame_bytes fields c)) = None
  ∧ Some <$> yielded (receive_bytes init (frame_bytes fields c))
    = (decoded_field <$> fields)
      ++ [Some (FrameEndEvent
                  (bool_decide (byte_sum (frame_bytes fields c) mod 256 = 0)))]
  ∧ state (final (receive_bytes init (frame_bytes fields c))) = IDLE
  ∧ checksum (final (receive_bytes init (frame_bytes fields c))) = 0
  ∧ complete_frame init (frame_bytes fields c)
      (bool_decide (byte_sum (frame_bytes fields c) mod 256 = 0)).
Proof.
  intros Hwf.
  destruct (frame_body_run fields init eq_refl eq_refl init_allocated Hwf)
    as (evs & p' & Hrun & Hevs & Hs & Hci & Hall & Hsum).
  assert (receive_bytes init (frame_bytes fields c)
          = mkRun (set_state IDLE (set_checksum 0 (summed p' c)))
              (evs ++ [FrameEndEvent
                         (bool_decide (byte_sum (frame_bytes fields c)
                                       mod 256 = 0))])
              None) as Hframe.
  { unfold frame_bytes. rewrite receive_bytes_snoc by (by rewrite Hrun).
    rewrite Hrun. cbn [final yielded raised].
    rewrite step_in_checksum by done. cbn [yield final yielded raised].
    rewrite Hsum, byte_sum_app. cbn [checksum init byte_sum foldr].
    do 4 f_equal. apply bool_decide_ext.
    by rewrite Z.add_0_l, Z.add_0_r. }
  rewrite Hframe. cbn [final yielded raised].
  split_and!; try done.
  - by rewrite fmap_app, Hevs.
  - exists (frame_body fields), c. rewrite Hframe, Hrun.
    cbn [final yielded raised]. split_and!; try done.
    + intros v Hin.
      assert (Some (FrameEndEvent v) ∈ Some <$> evs) as Hin'
        by (apply list_elem_of_fmap; eauto).
      rewrite Hevs in Hin'. apply list_elem_of_fmap in Hin' as (f & Hf & _).
      symmetry in Hf. by apply decoded_field_is_text in Hf.
    + rewrite step_in_checksum by done. cbn [yield yielded].
      rewrite Hsum. unfold frame_bytes. rewrite byte_sum_app.
      cbn [checksum init byte_sum foldr].
      do 2 f_equal. apply bool_decide_ext.
      by rewrite Z.add_0_l, Z.add_0_r.
Qed.

Lemma field_yields_text_event_witness :
  well_formed_field (bytes_lit "PID", bytes_lit "0xA042")
  ∧ Some <$> yielded (receive_bytes (final (receive_bytes init (bytes_lit "\r\n")))
                        (field_bytes (bytes_lit "PID", bytes_lit "0xA042")))
    = [Some (TextEvent (str_lit "PID") (str_lit "0xA042"))].
Proof.
  assert (well_formed_field (bytes_lit "PID", bytes_lit "0xA042")) as Hwf
    by (apply (bool_decide_unpack _); vm_compute; exact I).
  split; [exact Hwf|].
  destruct (field_yields_text_event
              (final (receive_bytes init (bytes_lit "\r\n")))
              (bytes_lit "PID", bytes_lit "0xA042"))
    as (_ & Hy & _); [reflexivity|reflexivity| |exact Hwf|exact Hy].
  apply receive_bytes_allocated, init_allocated.
Defined.

Lemma well_formed_frame_decodes_witness :
  Forall well_formed_field
    [(bytes_lit "V", bytes_lit "11020"); (bytes_lit "I", bytes_lit "0")]
  ∧ Some <$> yielded (receive_bytes init
                        (bytes_lit "\r\nV\t11020\r\nI\t0\r\nChecksum\t:"))
    = [Some (TextEvent (str_lit "V") (str_lit "11020"));
       Some (TextEvent (str_lit "I") (str_lit "0"));
       Some (FrameEndEvent false)].
Proof.
  assert (Forall well_formed_field
            [(bytes_lit "V", bytes_lit "11020"); (bytes_lit "I", bytes_lit "0")])
    as Hwf by (repeat constructor; apply (bool_decide_unpack _);
               vm_compute; exact I).
  split; [exact Hwf|].
  destruct (well_formed_frame_decodes _ ":"%byte Hwf) as (_ & Hy & _).
  exact Hy.
Defined.

Lemma checksum_byte_arith (s c : Z) :
  0 <= c < 256 → ((s + c) mod 256 = 0 ↔ c = (- s) mod 256).
Proof. intros Hc. Z.div_mod_to_equations. lia. Qed.

(** For a frame of well-formed fields, exactly one of the 256 checksum
    bytes makes the frame end valid: the one that brings the sum of the
    bytes before it to 0 modulo 256. *)
Theorem frame_valid_iff_checksum_byte
    (fields : list (bytes * bytes)) (c : byte) :
  Forall well_formed_field fields →
  (FrameEndEvent true ∈ yielded (receive_bytes init (frame_bytes fields c))
   ↔ ord c = (- byte_sum (frame_body fields)) mod 256)
  ∧ (FrameEndEvent false ∈ yielded (receive_bytes init (frame_bytes fields c))
     ↔ ord c ≠ (- byte_sum (frame_body fields)) mod 256).
Proof.
  intros Hwf.
  destruct (frame_body_run fields init eq_refl eq_refl init_allocated Hwf)
    as (evs & p' & Hrun & Hevs & Hs & Hci & Hall & Hsum).
  unfold frame_bytes. rewrite receive_bytes_snoc by (by rewrite Hrun).
  rewrite Hrun. cbn [final yielded raised].
  rewrite step_in_checksum by done. cbn [yield final yielded raised].
  rewrite Hsum. cbn [checksum init]. rewrite Z.add_0_l.
  assert (∀ v, FrameEndEvent v ∉ evs) as Hno.
  { intros v Hin.
    assert (Some (FrameEndEvent v) ∈ Some <$> evs) as Hin'
      by (apply list_elem_of_fmap; eauto).
    rewrite Hevs in Hin'. apply list_elem_of_fmap in Hin' as (f & Hf & _).
    symmetry in Hf. by apply decoded_field_is_text in Hf. }
  pose proof (checksum_byte_arith (byte_sum (frame_body fields)) (ord c)
                (ord_bounds c)) as Har.
  split; rewrite elem_of_app, list_elem_of_singleton; split.
  - intros [Hin|Heq]; [by apply Hno in Hin|].
    injection Heq as Heq. symmetry in Heq.
    apply bool_decide_eq_true_1 in Heq. by apply Har.
  - intros Hc. right. f_equal. symmetry. apply bool_decide_eq_true_2.
    by apply Har.
  - intros [Hin|Heq]; [by apply Hno in Hin|].
    injection Heq as Heq. symmetry in Heq.
    apply bool_decide_eq_false_1 in Heq. intros Hc. by apply Heq, Har.
  - intros Hc. right. f_equal. symmetry. apply bool_decide_eq_false_2.
    intros Hz. by apply Hc, Har.
Qed.

Lemma frame_valid_iff_checksum_byte_witness :
  Forall well_formed_field [(bytes_lit "V", bytes_lit "11020")]
  ∧ (FrameEndEvent true
       ∈ yielded (receive_bytes init
                    (frame_bytes [(bytes_lit "V", bytes_lit "11020")] "C"%byte))
     ↔ ord "C"%byte
       = (- byte_sum (frame_body [(bytes_lit "V", bytes_lit "11020")])) mod 256).
Proof.
  assert (Forall well_formed_field [(bytes_lit "V", bytes_lit "11020")])
    as Hwf by (repeat constructor; apply (bool_decide_unpack _);
               vm_compute; exact I).
  split; [exact Hwf|].
  exact (proj1 (frame_valid_iff_checksum_byte _ "C"%byte Hwf)).
Defined.

End TextFrames.

(** ** After a frame end *)

Section AfterFrameEnd.
Import Parser FrameSpec Transitions WireFormat UnitTest.

(** Bytes other than newline and colon, the carriage return among them,
    leave an idle parser as it is and add up in its running sum. *)
Lemma receive_bytes_idle_skip (skip : bytes) (p : VEDirectParser) :
  state p = IDLE →
  Forall (λ g, g ≠ x0a ∧ g ≠ ":"%byte) skip →
  receive_bytes p skip = ret (shifted (byte_sum skip) p).
Proof.
  revert p. induction skip as [|g rest IH]; intros p Hs Hg.
  { simpl. unfold shifted, set_checksum. rewrite Z.add_0_r. by destruct p. }
  apply Forall_cons in Hg as [[Hn Hc] Hg]. cbn [receive_bytes].
  rewrite step_idle_other by done. rewrite and_then_ret_l, IH by done.
  change (summed p g) with (shifted (ord g) p). by rewrite shifted_shifted.
Qed.

(** Where a frame end is yielded the index is 8, the length of
    [Checksum]: the index is not reset on the way through [CHECKSUM]. *)
Lemma frame_end_index (pre : bytes) (last : byte) (v : bool) :
  raised (receive_bytes init pre) = None →
  FrameEndEvent v ∈ yielded (step (final (receive_bytes init pre)) last) →
  current_index (final (receive_bytes init pre)) = 8%nat.
Proof.
  intros Hok Hin. apply step_frame_end in Hin as (Hs & _).
  destruct pre as [|t head _] using rev_ind; [done|].
  pose proof (receive_bytes_prefix_ok _ _ _ Hok) as Hok'.
  rewrite receive_bytes_snoc in Hs |- * by done. cbn [final] in *.
  apply step_enters_checksum in Hs as (-> & Hl & Hck).
  rewrite step_label_checksum by done. cbn [ret final].
  assert (allocated (final (receive_bytes init head))) as (Hlb & _ & _)
    by apply receive_bytes_allocated, init_allocated.
  apply (f_equal length) in Hck. rewrite length_take, Hlb in Hck.
  destruct checksum_label_facts as (_ & _ & Hlen & _). rewrite Hlen in Hck.
  unfold MAX_FIELD_LABEL_LEN in Hck. simpl. lia.
Qed.

(** After a frame end the next label is stored from index 8 on: whatever
    the frame was, the second byte of the next label raises [IndexError],
    and nothing is yielded for the next frame. *)
Theorem label_after_frame_end_raises
    (pre : bytes) (last : byte) (v : bool) (skip : bytes) (b1 b2 : byte) :
  raised (receive_bytes init pre) = None →
  FrameEndEvent v ∈ yielded (step (final (receive_bytes init pre)) last) →
  Forall (λ g, g ≠ x0a ∧ g ≠ ":"%byte) skip →
  b1 ≠ x09 → b1 ≠ ":"%byte → b2 ≠ x09 → b2 ≠ ":"%byte →
  current_index (final (receive_bytes init (pre ++ [last]))) = 8%nat
  ∧ raised (receive_bytes init ((pre ++ [last]) ++ skip ++ [x0a; b1])) = None
  ∧ raised (receive_bytes init ((pre ++ [last]) ++ skip ++ [x0a; b1; b2]))
    = Some IndexError
  ∧ yielded (receive_bytes init ((pre ++ [last]) ++ skip ++ [x0a; b1; b2]))
    = yielded (receive_bytes init (pre ++ [last])).
Proof.
  intros Hok Hin Hskip Hb1t Hb1c Hb2t Hb2c.
  pose proof (frame_end_index _ _ _ Hok Hin) as Hci.
  apply step_frame_end in Hin as (Hs & _ & Hstep).
  assert (allocated (final (receive_bytes init pre))) as (Hlb & Hvb & Hhb)
    by apply receive_bytes_allocated, init_allocated.
  unfold MAX_FIELD_LABEL_LEN in Hlb.
  pose proof (receive_bytes_snoc pre last init Hok) as Hsn.
  rewrite Hstep in Hsn. cbn [yield final yielded raised] in Hsn.
  set (p := final (receive_bytes init pre)) in *.
  set (q := set_state IDLE (set_checksum 0 (summed p last))) in *.
  assert (∀ tail, receive_bytes init ((pre ++ [last]) ++ skip ++ x0a :: b1 :: tail)
            = mkRun (final (receive_bytes
                       (set_current_index 9%nat
                         (set_label_buf (<[8%nat := b1]> (label_buf q))
                           (summed (set_state RECORD_LABEL
                                     (summed (shifted (byte_sum skip) q) x0a))
                                   b1)))
                       tail))
                (yielded (receive_bytes init (pre ++ [last]))
                 ++ yielded (receive_bytes
                       (set_current_index 9%nat
                         (set_label_buf (<[8%nat := b1]> (label_buf q))
                           (summed (set_state RECORD_LABEL
                                     (summed (shifted (byte_sum skip) q) x0a))
                                   b1)))
                       tail))
                (raised (receive_bytes
                       (set_current_index 9%nat
                         (set_label_buf (<[8%nat := b1]> (label_buf q))
                           (summed (set_state RECORD_LABEL
                                     (summed (shifted (byte_sum skip) q) x0a))
                                   b1)))
                       tail))) as Hrun.
  { intros tail. rewrite receive_bytes_app. rewrite Hsn. unfold and_then at 1.
    cbn [raised final yielded].
    rewrite receive_bytes_app, receive_bytes_idle_skip by done.
    rewrite and_then_ret_l. cbn [receive_bytes].
    rewrite step_idle_newline by done. rewrite and_then_ret_l.
    rewrite step_label_store; [|done|done|done|simpl; lia].
    rewrite and_then_ret_l. simpl. rewrite Hci. reflexivity. }
  split_and!.
  - by rewrite Hsn.
  - rewrite (Hrun []). reflexivity.
  - rewrite (Hrun [b2]). cbn [receive_bytes raised].
    rewrite step_label_overflow; [reflexivity|done|done|done|].
    simpl. rewrite length_insert. simpl. lia.
  - rewrite (Hrun [b2]). cbn [receive_bytes yielded].
    rewrite step_label_overflow; [|done|done|done|].
    + cbn. by rewrite app_nil_r.
    + simpl. rewrite length_insert. simpl. lia.
Qed.

(** After a frame end the label buffer still holds [Checksum] below the
    index: a newline and a tab, with no label between them, take the parser
    to [CHECKSUM] again, and the byte after the tab yields one more frame
    end. *)
Theorem tab_after_frame_end_ends_a_frame
    (pre : bytes) (last : byte) (v : bool) (skip : bytes) (c : byte) :
  raised (receive_bytes init pre) = None →
  FrameEndEvent v ∈ yielded (step (final (receive_bytes init pre)) last) →
  Forall (λ g, g ≠ x0a ∧ g ≠ ":"%byte) skip →
  receive_bytes init ((pre ++ [last]) ++ skip ++ [x0a; x09; c])
  = mkRun (final (receive_bytes init (pre ++ [last])))
      (yielded (receive_bytes init (pre ++ [last]))
       ++ [FrameEndEvent
             (bool_decide ((byte_sum (skip ++ [x0a; x09; c])) mod 256 = 0))])
      None.
Proof.
  intros Hok Hin Hskip.
  pose proof (frame_end_index _ _ _ Hok Hin) as Hci.
  apply step_frame_end in Hin as (Hs & _ & Hstep).
  pose proof (receive_bytes_snoc pre last init Hok) as Hsn.
  rewrite Hstep in Hsn. cbn [yield final yielded raised] in Hsn.
  assert (take 8 (label_buf (final (receive_bytes init pre)))
          = bytes_lit "Checksum") as Hlb.
  { destruct pre as [|t head _] using rev_ind; [done|].
    pose proof (receive_bytes_prefix_ok _ _ _ Hok) as Hok'.
    rewrite receive_bytes_snoc in Hs, Hci |- * by done. cbn [final] in *.
    apply step_enters_checksum in Hs as (-> & Hl & Hck).
    rewrite step_label_checksum in Hci |- * by done.
    cbn [ret final] in *. simpl in Hci. simpl. by rewrite <- Hci. }
  set (p := final (receive_bytes init pre)) in *. clearbody p.
  rewrite receive_bytes_app, Hsn. unfold and_then at 1.
  cbn [raised final yielded].
  rewrite receive_bytes_app, receive_bytes_idle_skip by done.
  rewrite and_then_ret_l, receive_bytes_cons.
  rewrite step_idle_newline by done. rewrite and_then_ret_l, receive_bytes_cons.
  rewrite step_label_checksum; [|done|simpl; by rewrite Hci].
  rewrite and_then_ret_l, receive_bytes_cons.
  rewrite step_in_checksum by done.
  unfold and_then. cbn [yield ret raised final yielded app].
  f_equal. do 3 f_equal. apply bool_decide_ext.
  rewrite byte_sum_app, !byte_sum_cons. simpl.
  by rewrite Z.add_0_r, !Z.add_assoc.
Qed.

Lemma tab_after_frame_end_ends_a_frame_witness :
  yielded (receive_bytes init (MPPT_SAMPLE ++ bytes_lit "\r\n\tx"))
  = MPPT_SAMPLE_FIELDS ++ [FrameEndEvent false].
Proof.
  pose proof (tab_after_frame_end_ends_a_frame (removelast MPPT_SAMPLE)
                "r"%byte true [x0d] "x"%byte) as H.
  apply (f_equal yielded) in H.
  - exact H.
  - vm_compute. reflexivity.
  - vm_compute. by left.
  - repeat constructor; discriminate.
Defined.

Lemma label_after_frame_end_raises_witness :
  raised (receive_bytes init (MPPT_SAMPLE ++ bytes_lit "\r\nPI"))
  = Some IndexError.
Proof.
  destruct (label_after_frame_end_raises (removelast MPPT_SAMPLE) "r"%byte true
              [x0d] "P"%byte "I"%byte) as (_ & _ & H & _).
  - vm_compute. reflexivity.
  - vm_compute. by left.
  - repeat constructor; discriminate.
  - discriminate.
  - discriminate.
  - discriminate.
  - discriminate.
  - exact H.
Defined.

End AfterFrameEnd.

(** ** The sizes of the events *)

Section EventBounds.
Import Parser FrameSpec Transitions WireFormat UnitTest.

Lemma utf8_decode_cons (b0 : byte) (rest : bytes) :
  utf8_decode (b0 :: rest)
  = let n0 := Byte.to_N b0 in
    if (n0 <? 128)%N then
      cons n0 <$> utf8_decode rest
    else if in_range 194 223 b0 then
      match rest with
      | b1 :: rest1 =>
          if in_range 128 191 b1
          then cons ((n0 - 192) * 64 + low6 b1)%N <$> utf8_decode rest1
          else None
      | _ => None
      end
    else if in_range 224 239 b0 then
      match rest with
      | b1 :: b2 :: rest2 =>
          if in_range (if (n0 =? 224)%N then 160 else 128)
                      (if (n0 =? 237)%N then 159 else 191) b1
             && in_range 128 191 b2
          then cons ((n0 - 224) * 4096 + low6 b1 * 64 + low6 b2)%N
                 <$> utf8_decode rest2
          else None
      | _ => None
      end
    else if in_range 240 244 b0 then
      match rest with
      | b1 :: b2 :: b3 :: rest3 =>
          if in_range (if (n0 =? 240)%N then 144 else 128)
                      (if (n0 =? 244)%N then 143 else 191) b1
             && in_range 128 191 b2 && in_range 128 191 b3
          then cons ((n0 - 240) * 262144 + low6 b1 * 4096
                     + low6 b2 * 64 + low6 b3)%N
                 <$> utf8_decode rest3
          else None
      | _ => None
      end
    else None.
Proof. reflexivity. Qed.

(** Decoding does not make a text longer: at most one character per byte. *)
Lemma utf8_decode_length (n : nat) (bs : bytes) (s : str) :
  (length bs ≤ n)%nat → utf8_decode bs = Some s →
  (length s ≤ length bs)%nat.
Proof.
  revert bs s. induction n as [|n IH]; intros bs s Hn Hd.
  { destruct bs; [|simpl in Hn; lia]. injection Hd as <-. done. }
  destruct bs as [|b0 rest]; [injection Hd as <-; done|].
  rewrite utf8_decode_cons in Hd. cbv zeta in Hd. simpl in Hn.
  repeat case_match; try discriminate;
    apply fmap_Some in Hd as (s' & Hs' & ->);
    apply IH in Hs'; simpl in *; lia.
Qed.

(** Whatever a fresh parser is fed, the events it yields are within the
    sizes of its buffers: labels of at most 9 characters, values of at most
    33, hex records of at most 100 bytes. *)
Theorem yielded_events_within_bounds (input : bytes) (e : Event) :
  e ∈ yielded (receive_bytes init input) → within_bounds e.
Proof.
  intros Hin. apply list_elem_of_split in Hin as (evs1 & evs2 & Hy).
  apply yielded_event_position in Hy as (pre & b & rest & -> & Hok & _ & Hb).
  assert (allocated (final (receive_bytes init pre))) as (Hlb & Hvb & Hhb)
    by apply receive_bytes_allocated, init_allocated.
  destruct (stepP (final (receive_bytes init pre)) b);
    cbn [ret raise yield yielded] in Hb; try discriminate Hb;
    injection Hb as <-; cbn [within_bounds]; [|done|].
  - split.
    + etrans; [by eapply (utf8_decode_length _ _ _ (le_n _))|].
      rewrite length_take, Hlb. lia.
    + etrans; [by eapply (utf8_decode_length _ _ _ (le_n _))|].
      rewrite length_take, Hvb. lia.
  - rewrite length_take, Hhb. lia.
Qed.

Lemma yielded_events_within_bounds_witness :
  within_bounds (TextEvent (str_lit "SER#") (str_lit "HQ1636WR7KW")).
Proof.
  apply (yielded_events_within_bounds MPPT_SAMPLE).
  vm_compute. do 2 right. by left.
Defined.

End EventBounds.

(** ** Hex records in the stream *)

Section HexStream.
Import Parser FrameSpec Transitions WireFormat HexProtocol.

Lemma step_colon (p : VEDirectParser) :
  state p ≠ CHECKSUM →
  step p ":"%byte = ret (set_state RECORD_HEX (set_current_index 0%nat p)).
Proof. intros. destruct (stepP p ":"%byte); done || congruence. Qed.

(** Once a hex event has been yielded, hex events are all that is yielded,
    and the parser is in [RECORD_HEX] when the call ends: no text frame is
    read any more. *)
Theorem only_hex_events_after_hex_event
    (p : VEDirectParser) (input : bytes)
    (evs1 evs2 : list Event) (h : bytes) :
  yielded (receive_bytes p input) = evs1 ++ HexEvent h :: evs2 →
  Forall is_hex_event evs2
  ∧ state (final (receive_bytes p input)) = RECORD_HEX.
Proof.
  intros Hy.
  pose proof Hy as Hpos.
  apply yielded_event_position in Hpos as (pre & b & rest & -> & Hok & Hpre & Hb).
  assert (state (final (receive_bytes p pre)) = RECORD_HEX) as Hs.
  { apply (step_yields_hex _ b (HexEvent h)); [|done]. rewrite Hb. by left. }
  destruct (receive_bytes_hex_stays _ (b :: rest) Hs) as [Hst Hall].
  rewrite receive_bytes_app in Hy |- *. unfold and_then in *.
  rewrite Hok in *. cbn [yielded final] in *. split; [|done].
  rewrite Hpre in Hy. apply app_inv_head in Hy. rewrite Hy in Hall.
  by apply Forall_cons in Hall as [_ Hall].
Qed.

Lemma only_hex_events_after_hex_event_witness :
  Forall is_hex_event
    [HexEvent (bytes_lit "7F0ED00\r"); HexEvent (bytes_lit "7F0ED00\rV\t11020\r")]
  ∧ state (final (receive_bytes init
                    (bytes_lit "\r\nPID\t0xA042\r\n:7F0ED00\n\r\nV\t11020\r\n")))
    = RECORD_HEX.
Proof.
  apply (only_hex_events_after_hex_event init
           (bytes_lit "\r\nPID\t0xA042\r\n:7F0ED00\n\r\nV\t11020\r\n")
           [TextEvent (str_lit "PID") (str_lit "0xA042")] _
           (bytes_lit "7F0ED00")).
  vm_compute. reflexivity.
Defined.

(** What a parser in [RECORD_HEX] yields, as long as the hex buffer is not
    overrun: at each newline, all the bytes since the last colon, the
    bytes of the records before it included. *)
Lemma hex_events_from (input : bytes) (p : VEDirectParser) :
  state p = RECORD_HEX →
  raised (receive_bytes p input) = None →
  yielded (receive_bytes p input)
  = hex_record_events (take (current_index p) (hex_buf p)) input.
Proof.
  revert p. induction input as [|b rest IH]; intros p Hs Hok; [done|].
  apply receive_bytes_cons_ok in Hok as (Hr & Hrest & -> & _).
  cbn [hex_record_events].
  destruct (stepP p b); try congruence; cbn [raise raised] in Hr;
    try discriminate Hr; cbn [ret yield yielded final] in *.
  - rewrite bool_decide_true by done. by rewrite IH.
  - rewrite bool_decide_false, bool_decide_true by (done || congruence).
    by rewrite IH.
  - rewrite !bool_decide_false by done. rewrite IH by done.
    cbn [current_index hex_buf set_current_index set_hex_buf].
    by rewrite take_S_insert.
Qed.

(** From a colon on (read in any state but [CHECKSUM]) and as long as the
    hex buffer is not overrun, the events are those of [hex_record_events]:
    a newline yields a hex event but does not end the capture, so that the
    next newline yields the bytes of both records. *)
Theorem hex_events_accumulate (p : VEDirectParser) (input : bytes) :
  state p ≠ CHECKSUM →
  raised (receive_bytes p (":"%byte :: input)) = None →
  yielded (receive_bytes p (":"%byte :: input)) = hex_record_events [] input.
Proof.
  intros Hs Hok. cbn [receive_bytes] in *.
  rewrite step_colon in * by done. rewrite and_then_ret_l in *.
  by rewrite hex_events_from.
Qed.

Lemma hex_events_accumulate_witness :
  yielded (receive_bytes init (bytes_lit ":A\nB\n:C\n"))
  = [HexEvent (bytes_lit "A"); HexEvent (bytes_lit "AB");
     HexEvent (bytes_lit "C")].
Proof.
  refine (hex_events_accumulate init (bytes_lit "A\nB\n:C\n") _ _).
  - discriminate.
  - reflexivity.
Defined.





End HexStream.

(** ** C1: a text frame with a hex record in it *)

Section FrameWithHexRecord.
Import Parser FrameSpec Transitions WireFormat.

(** From a colon read in any state but [CHECKSUM] on, no frame end is
    yielded, whatever follows. *)
Lemma no_frame_end_after_colon
    (p : VEDirectParser) (rest : bytes) (v : bool) :
  state p ≠ CHECKSUM →
  FrameEndEvent v ∉ yielded (receive_bytes p (":"%byte :: rest)).
Proof.
  intros Hs Hin. rewrite receive_bytes_cons, step_colon in Hin by done.
  rewrite and_then_ret_l in Hin.
  destruct (receive_bytes_hex_stays
              (set_state RECORD_HEX (set_current_index 0%nat p)) rest eq_refl)
    as [_ Hall].
  rewrite Forall_forall in Hall. by apply Hall in Hin.
Qed.

Lemma no_frame_end_through_colon
    (p : VEDirectParser) (pre rest : bytes) (v : bool) :
  raised (receive_bytes p pre) = None →
  FrameEndEvent v ∉ yielded (receive_bytes p pre) →
  state (final (receive_bytes p pre)) ≠ CHECKSUM →
  FrameEndEvent v ∉ yielded (receive_bytes p (pre ++ ":"%byte :: rest)).
Proof.
  intros Hok Hno Hs. rewrite receive_bytes_app. unfold and_then.
  rewrite Hok. cbn [yielded]. intros Hin.
  apply elem_of_app in Hin as [Hin|Hin]; [done|].
  by apply no_frame_end_after_colon in Hin.
Qed.

(** C1, on the code.  The frame [CR LF V TAB 11020 CR LF Checksum TAB C] is
    valid: its bytes sum to 0 modulo 256 and a fresh parser yields its text
    event and [FrameEndEvent true].  With the hex record [:A LF] arriving
    after the value, the bytes outside the record are the same and still sum
    to 0, and the running sum does leave the record out; but the parser
    yields two hex events and no frame end, for this or any other
    continuation, and ends in [RECORD_HEX]. *)
Theorem frame_with_hex_record_yields_no_frame_end :
  byte_sum (bytes_lit "\r\nV\t11020" ++ bytes_lit "\r\nChecksum\tC") mod 256 = 0
  ∧ yielded (receive_bytes init
               (bytes_lit "\r\nV\t11020" ++ bytes_lit "\r\nChecksum\tC"))
    = [TextEvent (str_lit "V") (str_lit "11020"); FrameEndEvent true]
  ∧ receive_bytes init
      (bytes_lit "\r\nV\t11020" ++ bytes_lit ":A\n"
       ++ bytes_lit "\r\nChecksum\tC")
    = mkRun (final (receive_bytes init
                      (bytes_lit "\r\nV\t11020" ++ bytes_lit ":A\n"
                       ++ bytes_lit "\r\nChecksum\tC")))
        [HexEvent (bytes_lit "A"); HexEvent (bytes_lit "A\r")] None
  ∧ state (final (receive_bytes init
                    (bytes_lit "\r\nV\t11020" ++ bytes_lit ":A\n"
                     ++ bytes_lit "\r\nChecksum\tC")))
    = RECORD_HEX
  ∧ checksum (final (receive_bytes init
                       (bytes_lit "\r\nV\t11020" ++ bytes_lit ":A\n"
                        ++ bytes_lit "\r\nChecksum\tC")))
    = byte_sum (bytes_lit "\r\nV\t11020")
  ∧ ∀ rest v,
      FrameEndEvent v
      ∉ yielded (receive_bytes init
                   (bytes_lit "\r\nV\t11020" ++ ":"%byte :: rest)).
Proof.
  do 5 (split; [vm_compute; reflexivity|]).
  intros rest v. apply no_frame_end_through_colon.
  - vm_compute. reflexivity.
  - vm_compute. apply not_elem_of_nil.
  - vm_compute. discriminate.
Qed.

End FrameWithHexRecord.
